(** * bleve: the scorch write path and numeric-range validation

    A shallow embedding of
      - [search/query/numeric_range.go]  (module [Query]);
      - [index/scorch/scorch.go]         (module [Scorch]).

    Go maps are [gmap]s, roaring bitmaps are [gset]s, [uint64] values are
    [N] reduced modulo [2^64], pointers are addresses into an explicit
    heap, and the goroutines of the write path are threads of a step
    function over the shared index state. *)

From Stdlib Require Import NArith ZArith Lia.
From stdpp Require Import base option numbers list strings gmap sets fin_maps.

Local Open Scope N_scope.
#[local] Set Warnings "-clear-no-such-hyp".

(** ** search/query/numeric_range.go *)
Module Query.

(** A Go pointer: [None] is [nil], [Some a] points at address [a]. *)
Definition ptr := option positive.

(** [error]: [None] is [nil], [Some msg] an error carrying [msg]. *)
Definition error := option string.

Record NumericRangeQuery := {
  Min          : ptr;      (* *float64 *)
  Max          : ptr;      (* *float64 *)
  InclusiveMin : ptr;      (* *bool *)
  InclusiveMax : ptr;      (* *bool *)
  Field        : string;
  Boost        : ptr       (* *Boost *)
}.

Definition NewNumericRangeInclusiveQuery
    (min max minInclusive maxInclusive : ptr) : NumericRangeQuery :=
  {| Min := min; Max := max;
     InclusiveMin := minInclusive; InclusiveMax := maxInclusive;
     Field := EmptyString; Boost := None |}.

Definition NewNumericRangeQuery (min max : ptr) : NumericRangeQuery :=
  NewNumericRangeInclusiveQuery min max None None.

Definition SetField (q : NumericRangeQuery) (f : string) : NumericRangeQuery :=
  {| Min := Min q; Max := Max q;
     InclusiveMin := InclusiveMin q; InclusiveMax := InclusiveMax q;
     Field := f; Boost := Boost q |}.

(** [if q.Min == nil && q.Min == q.Max { return fmt.Errorf(...) }; return nil].
    Both comparisons are pointer comparisons. *)
Definition Validate (q : NumericRangeQuery) : error :=
  if bool_decide (Min q = None) && bool_decide (Min q = Max q)
  then Some "numeric range query must specify min or max"%string
  else None.

(** [Searcher] (lines 61-67).  The index reader, the mapping's default
    search field, [Boost.Value] and the constructor of package searcher
    are declared in other packages: they are parameters.  A [float64] is
    only passed along. *)
Section Searcher.

Variables IndexReader float64 searcher : Type.
Variable DefaultSearchField : string.
Variable Boost_Value : ptr → float64.
Variable NewNumericRangeSearcher :
  IndexReader → ptr → ptr → ptr → ptr → string → float64 → bool →
  searcher * error.

Definition Searcher (q : NumericRangeQuery) (i : IndexReader) (explain : bool)
    : searcher * error :=
  let field :=
    if bool_decide (Field q = EmptyString) then DefaultSearchField
    else Field q in
  NewNumericRangeSearcher i (Min q) (Max q) (InclusiveMin q) (InclusiveMax q)
    field (Boost_Value (Boost q)) explain.

End Searcher.

End Query.

(** ** index/scorch/scorch.go *)
Module Scorch.

Definition uint64_modulus : N := 2 ^ 64.

(** Arithmetic on [uint64] wraps around. *)
Definition wrap_uint64 (n : N) : N := n mod uint64_modulus.

(** [error]: [None] is [nil]. *)
Definition error := option string.

(** Address of a [document.Document] on the heap; a [*document.Document]
    is an [option loc], [None] being [nil]. *)
Abbreviation loc := positive.

(** *** package document *)

(** [document.IndexingOptions] is an [int] used as a bit set. *)
Abbreviation IndexingOptions := Z.

(** Modelled from the spec: a text field of package document, whose
    source is missing, with the five arguments of [NewTextFieldCustom]. *)
Record Field := {
  f_name           : string;
  f_arrayPositions : list N;          (* []uint64, nil is [] *)
  f_value          : list Byte.byte;
  f_options        : IndexingOptions;
  f_analyzer       : option positive  (* *analysis.Analyzer *)
}.

(** Modelled from the spec: [document.Document], whose source is
    missing, with
    the fields [Batch] and [Analyze] read. *)
Record Document := {
  ID              : string;
  Fields          : list Field;
  CompositeFields : list string
}.

Abbreviation heap := (gmap positive Document).

(** Modelled from the spec: [document.NewTextFieldCustom], whose
    source is missing; it builds a text field from its five arguments. *)
Definition NewTextFieldCustom (name : string) (arrayPositions : list N)
    (value : list Byte.byte) (options : IndexingOptions)
    (analyzer : option positive) : Field :=
  {| f_name := name; f_arrayPositions := arrayPositions; f_value := value;
     f_options := options; f_analyzer := analyzer |}.

(** Modelled from the spec: [Document.AddField], whose source is
    missing; a
    plain (non-composite) field is appended to [Fields]. *)
Definition AddField (d : Document) (f : Field) : Document :=
  {| ID := ID d; Fields := Fields d ++ [f];
     CompositeFields := CompositeFields d |}.

(** *** package index: [index.Batch] *)
Module index.

(** Modelled from the spec: [index.Batch], whose source is missing,
    with the
    two maps [Batch] reads: [IndexOps map[string]*document.Document] and
    [InternalOps map[string][]byte]; a nil value is [None]. *)
Record Batch := {
  IndexOps    : gmap string (option positive);
  InternalOps : gmap string (option (list Byte.byte))
}.

(** Modelled from the spec: [index.NewBatch], whose source is missing,
    the
    empty batch.  "a Batch = mapping from document ID to either a
    document-with-fields or an absence (tombstone), plus a mapping of
    internal metadata key/value upserts and deletes". *)
Definition NewBatch : Batch := {| IndexOps := ∅; InternalOps := ∅ |}.

(** Modelled from the spec: [Batch.Update], whose source is missing:
    [b.IndexOps[doc.ID] = doc]; reading [doc.ID] dereferences [doc]. *)
Definition Update (h : heap) (b : Batch) (doc : loc) : option Batch :=
  d ← h !! doc;
  Some {| IndexOps := <[ID d := Some doc]> (IndexOps b);
          InternalOps := InternalOps b |}.

(** Modelled from the spec: [Batch.Delete], whose source is missing:
    [b.IndexOps[id] = nil], a tombstone. *)
Definition Delete (b : Batch) (id : string) : Batch :=
  {| IndexOps := <[id := None]> (IndexOps b);
     InternalOps := InternalOps b |}.

(** Modelled from the spec: [Batch.SetInternal], whose source is
    missing:
    [b.InternalOps[string(key)] = val]. *)
Definition SetInternal (b : Batch) (key : string)
    (val : option (list Byte.byte)) : Batch :=
  {| IndexOps := IndexOps b;
     InternalOps := <[key := val]> (InternalOps b) |}.

(** Modelled from the spec: [Batch.DeleteInternal], whose source is
    missing:
    [b.InternalOps[string(key)] = nil]. *)
Definition DeleteInternal (b : Batch) (key : string) : Batch :=
  {| IndexOps := IndexOps b;
     InternalOps := <[key := None]> (InternalOps b) |}.

End index.

(** *** package segment *)

(** Modelled from the spec: the [segment.Segment] capability and the
    in-memory segment of package [mem], whose sources are missing.  "an immutable
    unit holding a set of analyzed documents"; "given a list of external
    document IDs, return the set of internal document numbers it
    contains for those IDs".  A segment is the list of the external IDs
    of its documents; the internal document number is the position. *)
Record Segment := { seg_docs : list string }.

(** Modelled from the spec: [mem.New()], the empty segment. *)
Definition mem_New : Segment := {| seg_docs := [] |}.

(** Modelled from the spec: the point query of a segment, whose source
    is missing: the document numbers, counted from [n], of the entries with
    external ID [id]. *)
Fixpoint postings (id : string) (docs : list string) (n : nat) : gset nat :=
  match docs with
  | [] => ∅
  | d :: docs' =>
      (if bool_decide (d = id) then {[ n ]} else ∅) ∪ postings id docs' (S n)
  end.

(** Modelled from the spec: [Segment.DocNumbers(ids)], a point query per
    external ID, the answers collected in one bitmap. *)
Definition DocNumbers (seg : Segment) (ids : list string) : gset nat :=
  ⋃ ((λ id, postings id (seg_docs seg) 0) <$> ids).

(** *** The index state *)

(** Modelled from the spec: [SegmentSnapshot], whose source is missing
    ([prepareSegment] only reads [root.segment[i].segment] and [root.segment[i].id]).
    "an ordered sequence of entries, each (segment, segment-id,
    deletion-bitmap)". *)
Record SegmentSnapshot := {
  ss_id      : N;
  ss_segment : Segment;
  ss_deleted : gset nat
}.

(** Modelled from the spec: [IndexSnapshot], whose source is missing:
    the
    entries in the order of their introduction, the internal metadata
    and the version counter. *)
Record IndexSnapshot := {
  is_segment  : list SegmentSnapshot;
  is_internal : gmap string (list Byte.byte);
  is_version  : N
}.

(** [segmentIntroduction], with the fields of lines 133-140; the
    [applied] channel is the program counter of the submitting goroutine
    below. *)
Record segmentIntroduction := {
  si_id        : N;
  si_data      : Segment;
  si_ids       : list string;
  si_obsoletes : gmap N (gset nat);
  si_internal  : gmap string (option (list Byte.byte))
}.

Inductive chan_state := ChanNil | ChanOpen | ChanClosed.
Inductive loop_state := LoopNotStarted | LoopRunning | LoopExited.

(** [Scorch]: the fields the write path reads and writes.  [closeCh] is
    the state of the close channel, [mainLoop] that of the goroutine
    started by [Open]. *)
Record Scorch := {
  nextSegmentID : N;
  root          : IndexSnapshot;
  closeCh       : chan_state;
  mainLoop      : loop_state
}.

Definition NewScorch : Scorch :=
  {| nextSegmentID := 0;
     root := {| is_segment := []; is_internal := ∅; is_version := 0 |};
     closeCh := ChanNil;
     mainLoop := LoopNotStarted |}.

(** [s.closeCh = make(..); s.introductions = make(..); go s.mainLoop()] *)
Definition Open (s : Scorch) : Scorch :=
  {| nextSegmentID := nextSegmentID s; root := root s;
     closeCh := ChanOpen; mainLoop := LoopRunning |}.

(** [close(s.closeCh); return nil].  Closing a nil or an already closed
    channel panics: [None]. *)
Definition Close (s : Scorch) : option (error * Scorch) :=
  match closeCh s with
  | ChanOpen =>
      Some (None, {| nextSegmentID := nextSegmentID s; root := root s;
                     closeCh := ChanClosed; mainLoop := mainLoop s |})
  | _ => None
  end.

(** [Reader] (lines 172-178): a reader holds the root of the moment it
    is made; the error is always [nil]. *)
Record Reader_ := { reader_root : IndexSnapshot }.

Definition Reader (s : Scorch) : Reader_ * error :=
  ({| reader_root := root s |}, None).

(** *** Analyze (lines 187-210) and the analysis phase of Batch *)
Section Engine.

(** The option bits of package document, the token-frequency type and
    the per-field analyzer are declared in other packages: they are parameters. *)
Variables IndexField StoreField : IndexingOptions.
Variable TokenFrequencies : Type.
Variable field_Analyze : Field → Z * TokenFrequencies.

(** Modelled from the spec: [IndexingOptions.IsIndexed] and
    [IsStored], whose source is missing: the option's bit is set
    ("its external ID, stored and indexed"). *)
Definition IsIndexed (o : IndexingOptions) : bool :=
  negb (Z.land o IndexField =? 0)%Z.
Definition IsStored (o : IndexingOptions) : bool :=
  negb (Z.land o StoreField =? 0)%Z.

(** [index.AnalysisResult]: the fields [Analyze] fills. *)
Record AnalysisResult := {
  ar_Document : loc;   (* Document *)
  Analyzed : list (option TokenFrequencies);
  Length   : list Z
}.

(** The loop of [Analyze] over [d.Fields], from index [i].  The calls
    to [compositeField.Compose] only touch the composite fields'
    private state and are left out. *)
Fixpoint Analyze_fields (i : nat) (fields : list Field)
    (rv : AnalysisResult) : AnalysisResult :=
  match fields with
  | [] => rv
  | field :: rest =>
      let rv' :=
        if IsIndexed (f_options field) then
          let '(fieldLength, tokenFreqs) := field_Analyze field in
          {| ar_Document := ar_Document rv;
             Analyzed := <[i := Some tokenFreqs]> (Analyzed rv);
             Length := <[i := fieldLength]> (Length rv) |}
        else rv in
      Analyze_fields (S i) rest rv'
  end.

(** [Analyze(d)], [p] being the pointer [d] and [doc] its pointee. *)
Definition Analyze (p : loc) (doc : Document) : AnalysisResult :=
  let n := (length (Fields doc) + length (CompositeFields doc))%nat in
  Analyze_fields 0 (Fields doc)
    {| ar_Document := p; Analyzed := replicate n None;
       Length := replicate n 0%Z |}.

(** The field of line 85:
    [NewTextFieldCustom("_id", nil, []byte(doc.ID), IndexField|StoreField, nil)] *)
Definition id_field (doc : Document) : Field :=
  NewTextFieldCustom "_id" [] (String.list_byte_of_string (ID doc))
    (Z.lor IndexField StoreField) None.

(** The document [d] after [k] injections of its identity field. *)
Definition with_ids (k : nat) (d : Document) : Document :=
  {| ID := ID d;
     Fields := Fields d ++ replicate k (id_field d);
     CompositeFields := CompositeFields d |}.

(** The upserts (non-nil documents) of an enumeration of [IndexOps]. *)
Definition upserts (order : list (string * option loc)) : list loc :=
  omap snd order.

(** State of the first loop of [Batch] (lines 79-90).  The variable
    [numPlainTextBytes] is accumulated but never read and is left out. *)
Record scan := {
  sc_heap    : heap;
  numUpdates : N;
  ids        : list string
}.

(** One iteration of [for docID, doc := range batch.IndexOps]. *)
Definition Batch_scan_entry (st : scan) (e : string * option loc) : scan :=
  let st1 :=
    match e.2 with
    | Some doc =>
        {| sc_heap := alter (λ d, AddField d (id_field d)) doc (sc_heap st);
           numUpdates := wrap_uint64 (numUpdates st + 1);
           ids := ids st |}
    | None => st
    end in
  {| sc_heap := sc_heap st1; numUpdates := numUpdates st1;
     ids := ids st1 ++ [e.1] |}.

Definition Batch_scan (h : heap) (order : list (string * option loc)) : scan :=
  foldl Batch_scan_entry {| sc_heap := h; numUpdates := 0; ids := [] |} order.

(** The goroutine of lines 94-102: the documents put on the analysis
    queue, in queueing order ([index.NewAnalysisWork(s, doc, resultChan)]). *)
Definition Batch_dispatch (order : list (string * option loc)) : list loc :=
  foldl (λ queue e, match e.2 with
                    | Some doc => queue ++ [doc]
                    | None => queue
                    end) [] order.

(** An analysis worker runs [s.Analyze(doc)] on each queued document
    and sends the result on the work's result channel. *)
Definition run_workers (h : heap) (queue : list loc) : list AnalysisResult :=
  omap (λ doc, Analyze doc <$> h !! doc) queue.

(** The receive loop of lines 105-113.  [resultChan] is the list of
    results still to arrive; a receive on a channel on which nothing
    will arrive blocks for ever: [None]. *)
Fixpoint Batch_wait (resultChan : list AnalysisResult)
    (numUpdates itemsDeQueued : N)
    (analysisResults : list (option AnalysisResult))
    : option (list (option AnalysisResult) * list AnalysisResult) :=
  if itemsDeQueued <? numUpdates then
    match resultChan with
    | [] => None
    | result :: resultChan' =>
        Batch_wait resultChan' numUpdates (wrap_uint64 (itemsDeQueued + 1))
          (<[N.to_nat itemsDeQueued := Some result]> analysisResults)
    end
  else Some (analysisResults, resultChan).

(** Modelled from the spec: [mem.NewFromAnalyzedDocs], whose source
    is missing: "build one Segment from the complete set of analyzed
    results", one document per result, in the order of the results.
    A nil result is a nil dereference: [None]. *)
Definition NewFromAnalyzedDocs (h : heap)
    (results : list (option AnalysisResult)) : option Segment :=
  docs ← mapM (λ r, r' ← r; d ← h !! ar_Document r'; Some (ID d)) results;
  Some {| seg_docs := docs |}.

(** What Go leaves open: the order of the two [range] loops over the
    map and the order in which the workers deliver their results. *)
Record nondet := {
  range_scan     : gmap string (option loc) → list (string * option loc);
  range_dispatch : gmap string (option loc) → list (string * option loc);
  deliver        : list AnalysisResult → list AnalysisResult
}.

Definition nondet_ok (nd : nondet) : Prop :=
  (∀ m, range_scan nd m ≡ₚ map_to_list m) ∧
  (∀ m, range_dispatch nd m ≡ₚ map_to_list m) ∧
  (∀ l, deliver nd l ≡ₚ l).

(** Lines 73-123 of [Batch]: the arguments of the call to
    [prepareSegment] on line 124, and the heap after the scan; [None]
    when the receive loop blocks for ever or the segment cannot be
    built.  Closing the result channel (line 114) and the statistics
    (lines 75 and 116) are left out. *)
Definition Batch_analysis (nd : nondet) (h : heap) (batch : index.Batch)
    : option (heap * Segment * list string) :=
  let st := Batch_scan h (range_scan nd (index.IndexOps batch)) in
  let queue := Batch_dispatch (range_dispatch nd (index.IndexOps batch)) in
  let resultChan := deliver nd (run_workers (sc_heap st) queue) in
  '(analysisResults, _) ←
    Batch_wait resultChan (numUpdates st) 0
      (replicate (N.to_nat (numUpdates st)) None);
  newSegment ←
    (if bool_decide (0 < length analysisResults)%nat
     then NewFromAnalyzedDocs (sc_heap st) analysisResults
     else Some mem_New);
  Some (sc_heap st, newSegment, ids st).

(** *** prepareSegment (lines 129-156) *)

(** What a goroutine does to the shared state, for the lock
    discipline of lines 143-148. *)
Inductive Event :=
| EvRLock                      (* s.rootLock.RLock() *)
| EvRUnlock                    (* s.rootLock.RUnlock() *)
| EvDocNumbers (segment : N).  (* root.segment[i].segment.DocNumbers(ids) *)

Inductive lock_state := Unlocked | ReadLocked.

Definition lock_after (l : lock_state) (e : Event) : lock_state :=
  match e with
  | EvRLock => ReadLocked
  | EvRUnlock => Unlocked
  | EvDocNumbers _ => l
  end.

(** The state of the goroutine's hold on [rootLock] just before the
    [k]-th event of a trace that starts with the lock not held. *)
Definition lock_before (tr : list Event) (k : nat) : lock_state :=
  foldl lock_after Unlocked (take k tr).

(** Lines 133-140: the new introduction; [atomic.AddUint64] returns
    the incremented counter.  [applied] is the thread's program
    counter. *)
Definition prepareSegment_new (s : Scorch) (newSegment : Segment)
    (ids : list string)
    (internalOps : gmap string (option (list Byte.byte)))
    : segmentIntroduction * Scorch :=
  let id := wrap_uint64 (nextSegmentID s + 1) in
  ({| si_id := id; si_data := newSegment; si_ids := ids;
      si_obsoletes := ∅; si_internal := internalOps |},
   {| nextSegmentID := id; root := root s;
      closeCh := closeCh s; mainLoop := mainLoop s |}).

(** One iteration of [for i := range s.root.segment] (lines 145-146). *)
Definition prepareSegment_visit
    (acc : segmentIntroduction * list Event) (entry : SegmentSnapshot)
    : segmentIntroduction * list Event :=
  let introduction := acc.1 in
  let delta := DocNumbers (ss_segment entry) (si_ids introduction) in
  ({| si_id := si_id introduction; si_data := si_data introduction;
      si_ids := si_ids introduction;
      si_obsoletes := <[ss_id entry := delta]> (si_obsoletes introduction);
      si_internal := si_internal introduction |},
   acc.2 ++ [EvDocNumbers (ss_id entry)]).

(** Lines 143-148, with the events of the goroutine in order. *)
Definition prepareSegment_obsoletes (r : IndexSnapshot)
    (introduction : segmentIntroduction)
    : segmentIntroduction * list Event :=
  let acc := foldl prepareSegment_visit (introduction, [EvRLock])
                   (is_segment r) in
  (acc.1, acc.2 ++ [EvRUnlock]).

(** *** The introduction loop *)

(** Modelled from the spec: the body of [mainLoop], whose source is
    missing.
    "construct the new snapshot = previous snapshot's segments, each
    segment's deletion bitmap unioned with any obsoletion this
    introduction computed for it, plus the new segment appended with
    a fresh deletion bitmap [...]. Internal key/value deltas are
    folded into the new snapshot's internal metadata. The new version
    counter = previous + 1." *)
Definition introduce (r : IndexSnapshot) (next : segmentIntroduction)
    : IndexSnapshot :=
  {| is_segment :=
       ((λ entry,
          {| ss_id := ss_id entry; ss_segment := ss_segment entry;
             ss_deleted :=
               ss_deleted entry ∪
               default ∅ (si_obsoletes next !! ss_id entry) |})
        <$> is_segment r)
       ++ [ {| ss_id := si_id next; ss_segment := si_data next;
               ss_deleted := ∅ |} ];
     is_internal :=
       merge (λ old delta,
                match delta with
                | Some (Some val) => Some val
                | Some None => None
                | None => old
                end) (is_internal r) (si_internal next);
     is_version := is_version r + 1 |}.

(** *** Goroutines *)

(** Where a goroutine that called [prepareSegment] stands. *)
Inductive pc :=
| AtEntry (newSegment : Segment) (ids : list string)
          (internalOps : gmap string (option (list Byte.byte)))
| AtRLock (introduction : segmentIntroduction)    (* before line 143 *)
| AtSend (introduction : segmentIntroduction)     (* blocked on line 150 *)
| AtApplied (introduction : segmentIntroduction)  (* line 153, signalled *)
| Returned (introduction : segmentIntroduction) (err : error).

Record System := {
  scorch  : Scorch;
  threads : list pc
}.

Inductive action :=
| ActOpen
| ActClose
| ActLoopExit
| ActCall (newSegment : Segment) (ids : list string)
          (internalOps : gmap string (option (list Byte.byte)))
| ActNew (t : nat)
| ActObsoletes (t : nat)
| ActIntroduce (t : nat)
| ActReturn (t : nat).

Definition with_root (s : Scorch) (r : IndexSnapshot) : Scorch :=
  {| nextSegmentID := nextSegmentID s; root := r;
     closeCh := closeCh s; mainLoop := mainLoop s |}.

Definition with_mainLoop (s : Scorch) (l : loop_state) : Scorch :=
  {| nextSegmentID := nextSegmentID s; root := root s;
     closeCh := closeCh s; mainLoop := l |}.

(** Modelled from the spec: one turn of [mainLoop], whose source is
    missing:
    the running loop receives the next introduction, builds the next
    snapshot and publishes it as the root, then signals [applied].
    "exactly one logical thread processes pending introductions one at
    a time"; "swap the process-wide root pointer to the new snapshot
    [...], then signal the submitter's completion channel". *)
Definition mainLoop_turn (s : Scorch) (next : segmentIntroduction)
    : option Scorch :=
  match mainLoop s with
  | LoopRunning => Some (with_root s (introduce (root s) next))
  | _ => None
  end.

(** Modelled from the spec: the exit of [mainLoop], whose source is
    missing:
    "the loop exits when the engine is closed". *)
Definition mainLoop_exit (s : Scorch) : option Scorch :=
  match mainLoop s, closeCh s with
  | LoopRunning, ChanClosed => Some (with_mainLoop s LoopExited)
  | _, _ => None
  end.

(** One atomic step of the system; [None] when the step is not
    enabled (the goroutine is elsewhere or blocked) or panics.
    - [ActCall]: a goroutine calls [prepareSegment];
    - [ActNew t]: goroutine [t] runs lines 133-140;
    - [ActObsoletes t]: goroutine [t] runs lines 143-148; the root does
      not change while the read lock is held;
    - [ActIntroduce t]: the send of line 150 meets the receive of the
      loop, which takes its turn;
    - [ActReturn t]: lines 153-155, [applied] having been signalled;
    - [ActOpen], [ActClose], [ActLoopExit]: [Open], [Close] and the
      exit of the loop. *)
Definition exec (a : action) (sys : System) : option System :=
  let s := scorch sys in
  match a with
  | ActOpen =>
      match mainLoop s with
      | LoopNotStarted => Some {| scorch := Open s; threads := threads sys |}
      | _ => None
      end
  | ActClose =>
      '(_, s') ← Close s;
      Some {| scorch := s'; threads := threads sys |}
  | ActLoopExit =>
      s' ← mainLoop_exit s;
      Some {| scorch := s'; threads := threads sys |}
  | ActCall newSegment ids internalOps =>
      Some {| scorch := s;
              threads := threads sys ++ [AtEntry newSegment ids internalOps] |}
  | ActNew t =>
      match threads sys !! t with
      | Some (AtEntry newSegment ids internalOps) =>
          let '(introduction, s') :=
            prepareSegment_new s newSegment ids internalOps in
          Some {| scorch := s';
                  threads := <[t := AtRLock introduction]> (threads sys) |}
      | _ => None
      end
  | ActObsoletes t =>
      match threads sys !! t with
      | Some (AtRLock introduction) =>
          Some {| scorch := s;
                  threads :=
                    <[t := AtSend
                             (prepareSegment_obsoletes (root s) introduction).1]>
                      (threads sys) |}
      | _ => None
      end
  | ActIntroduce t =>
      match threads sys !! t with
      | Some (AtSend introduction) =>
          s' ← mainLoop_turn s introduction;
          Some {| scorch := s';
                  threads := <[t := AtApplied introduction]> (threads sys) |}
      | _ => None
      end
  | ActReturn t =>
      match threads sys !! t with
      | Some (AtApplied introduction) =>
          Some {| scorch := s;
                  threads := <[t := Returned introduction None]> (threads sys) |}
      | _ => None
      end
  end.

(** A schedule, step after step. *)
Fixpoint run (sched : list action) (sys : System) : option System :=
  match sched with
  | [] => Some sys
  | a :: sched' => sys' ← exec a sys; run sched' sys'
  end.

(** A freshly created and opened index with no caller. *)
Definition initial : System :=
  {| scorch := Open NewScorch; threads := [] |}.

(** The segment IDs handed out by the [ActNew] steps of a schedule,
    in the order in which they are handed out. *)
Fixpoint assigned (sched : list action) (sys : System) : list N :=
  match sched with
  | [] => []
  | a :: sched' =>
      match exec a sys with
      | None => []
      | Some sys' =>
          match a with
          | ActNew _ => [nextSegmentID (scorch sys')]
          | _ => []
          end ++ assigned sched' sys'
      end
  end.

(** *** Batch and the single-operation wrappers *)

(** [Batch] up to the moment its goroutine enters [prepareSegment]
    (line 124): other goroutines may run between its steps. *)
Definition Batch_call (nd : nondet) (sys : System) (h : heap)
    (batch : index.Batch) : option (System * heap) :=
  '(h1, newSegment, ids) ← Batch_analysis nd h batch;
  sys' ← exec (ActCall newSegment ids (index.InternalOps batch)) sys;
  Some (sys', h1).

(** The steps of one call of [prepareSegment] by thread [t]. *)
Definition prepareSegment_steps (t : nat) : list action :=
  [ActNew t; ActObsoletes t; ActIntroduce t; ActReturn t].

(** [prepareSegment] run with no other goroutine in between; [None]
    when it never returns. *)
Definition prepareSegment (sys : System) (newSegment : Segment)
    (ids : list string)
    (internalOps : gmap string (option (list Byte.byte)))
    : option (error * System) :=
  let t := length (threads sys) in
  sys' ← run (ActCall newSegment ids internalOps :: prepareSegment_steps t) sys;
  match threads sys' !! t with
  | Some (Returned _ err) => Some (err, sys')
  | _ => None
  end.

(** [Batch] run with no other goroutine in between.  The result of
    [prepareSegment] is dropped (line 124) and [nil] is returned
    (line 126). *)
Definition Batch (nd : nondet) (sys : System) (h : heap)
    (batch : index.Batch) : option (error * System * heap) :=
  '(h1, newSegment, ids) ← Batch_analysis nd h batch;
  '(_, sys') ← prepareSegment sys newSegment ids (index.InternalOps batch);
  Some (None, sys', h1).

(** Lines 60-64. *)
Definition Update (nd : nondet) (sys : System) (h : heap) (doc : loc)
    : option (error * System * heap) :=
  b ← index.Update h index.NewBatch doc;
  Batch nd sys h b.

(** Lines 66-70. *)
Definition Delete (nd : nondet) (sys : System) (h : heap) (id : string)
    : option (error * System * heap) :=
  let b := index.Delete index.NewBatch id in
  Batch nd sys h b.

(** Lines 158-162. *)
Definition SetInternal (nd : nondet) (sys : System) (h : heap)
    (key : string) (val : option (list Byte.byte))
    : option (error * System * heap) :=
  let b := index.SetInternal index.NewBatch key val in
  Batch nd sys h b.

(** Lines 164-168. *)
Definition DeleteInternal (nd : nondet) (sys : System) (h : heap)
    (key : string) : option (error * System * heap) :=
  let b := index.DeleteInternal index.NewBatch key in
  Batch nd sys h b.

(** The one-element batches in the words of the specification: "a
    fresh batch containing only that one upsert", "a single
    tombstone", "a single internal-metadata upsert or delete". *)
Definition single_upsert (id : string) (doc : loc) : index.Batch :=
  {| index.IndexOps := {[ id := Some doc ]}; index.InternalOps := ∅ |}.
Definition single_tombstone (id : string) : index.Batch :=
  {| index.IndexOps := {[ id := None ]}; index.InternalOps := ∅ |}.
Definition single_internal (key : string)
    (val : option (list Byte.byte)) : index.Batch :=
  {| index.IndexOps := ∅; index.InternalOps := {[ key := val ]} |}.

(** The arguments of one call of [prepareSegment]. *)
Record call := {
  c_segment  : Segment;
  c_ids      : list string;
  c_internal : gmap string (option (list Byte.byte))
}.


(** The state after one more run of lines 133-140. *)
Definition next_introduction (s : Scorch) : Scorch :=
  (prepareSegment_new s mem_New [] ∅).2.

End Engine.

Arguments ar_Document {_} _.
Arguments Analyzed {_} _.
Arguments Length {_} _.
Arguments Analyze_fields _ {_} _ _ _ _.
Arguments Analyze _ {_} _ _ _.
Arguments run_workers _ {_} _ _ _.
Arguments Batch_wait {_} _ _ _ _.
Arguments NewFromAnalyzedDocs {_} _ _.
Arguments range_scan {_} _ _.
Arguments range_dispatch {_} _ _.
Arguments deliver {_} _ _.
Arguments nondet_ok {_} _.
Arguments Batch_analysis _ _ {_} _ _ _ _.
Arguments Batch_call _ _ {_} _ _ _ _ _.
Arguments Batch _ _ {_} _ _ _ _ _.
Arguments Update _ _ {_} _ _ _ _ _.
Arguments Delete _ _ {_} _ _ _ _ _.
Arguments SetInternal _ _ {_} _ _ _ _ _ _.
Arguments DeleteInternal _ _ {_} _ _ _ _ _.

(** *** What a reader of a snapshot sees *)

(** Positions, counted from [n], of the documents with external ID [D]. *)
Fixpoint occurrences (D : string) (docs : list string) (n : nat) : list nat :=
  match docs with
  | [] => []
  | d :: docs' =>
      (if bool_decide (d = D) then [n] else []) ++ occurrences D docs' (S n)
  end.

(** The live (not obsoleted) document numbers of [D] in one entry. *)
Definition live_in (entry : SegmentSnapshot) (D : string) : list (N * nat) :=
  (λ n, (ss_id entry, n)) <$>
    filter (λ n, n ∉ ss_deleted entry)
           (occurrences D (seg_docs (ss_segment entry)) 0).

(** The live document numbers of [D] across all segments of a
    snapshot, each with the ID of its segment. *)
Definition live (r : IndexSnapshot) (D : string) : list (N * nat) :=
  is_segment r ≫= (λ entry, live_in entry D).


(** A call as [Batch] makes it for a batch keyed by document ID: the
    new segment holds each upserted ID once, and every ID of the
    segment is in the list of IDs of the batch. *)
Definition call_ok (c : call) : Prop :=
  NoDup (seg_docs (c_segment c)) ∧ seg_docs (c_segment c) ⊆ c_ids c.







(** The arguments of the calls are those [Batch] makes for a batch keyed
    by document ID (see [call_ok]). *)
Definition action_ok (a : action) : Prop :=
  match a with
  | ActCall newSegment ids _ =>
      NoDup (seg_docs newSegment) ∧ seg_docs newSegment ⊆ ids
  | _ => True
  end.


(** The segment ID a goroutine holds for an introduction not yet
    applied. *)
Definition pending_id (p : pc) : option N :=
  match p with
  | AtRLock i | AtSend i => Some (si_id i)
  | _ => None
  end.

(** The segment IDs in use: those of the segments of the root and those
    of the introductions on their way. *)
Definition ids_in_use (sys : System) : list N :=
  (ss_id <$> is_segment (root (scorch sys))) ++ omap pending_id (threads sys).

(** The segment of an introduction is part of a snapshot under the ID
    the introduction was given. *)
Definition applied_in (r : IndexSnapshot) (i : segmentIntroduction) : Prop :=
  ∃ entry, entry ∈ is_segment r ∧
           ss_id entry = si_id i ∧ ss_segment entry = si_data i.

(** A goroutine past the signal holds an applied introduction, and one
    that returned did so with [nil]. *)
Definition pc_ok (r : IndexSnapshot) (p : pc) : Prop :=
  match p with
  | AtApplied i => applied_in r i
  | Returned i err => err = None ∧ applied_in r i
  | _ => True
  end.

(** *** Concrete values for the examples *)
Module Fixture.

Definition IndexField : Z := 1.
Definition StoreField : Z := 2.

Definition fa (f : Field) : Z * unit := (Z.of_nat (length (f_value f)), tt).

Definition nd : nondet unit :=
  {| range_scan := map_to_list; range_dispatch := map_to_list;
     deliver := λ l, l |}.

Definition doc (id : string) : Document :=
  {| ID := id; Fields := []; CompositeFields := [] |}.

(** Two documents with ID "a" and one with ID "b". *)
Definition h : gmap positive Document :=
  <[1%positive := doc "a"]> (<[2%positive := doc "a"]> (<[3%positive := doc "b"]> ∅)).

Definition segment_a : Segment := {| seg_docs := ["a"%string] |}.

(** A root with the single segment of a batch that wrote "a". *)
Definition root_a : IndexSnapshot :=
  {| is_segment := [ {| ss_id := 1; ss_segment := segment_a; ss_deleted := ∅ |} ];
     is_internal := ∅; is_version := 1 |}.

(** Two goroutines write "a"; both compute their obsoletes before
    either introduction is applied. *)
Definition racing : list action :=
  [ActCall segment_a ["a"%string] ∅; ActCall segment_a ["a"%string] ∅;
   ActNew 0; ActObsoletes 0; ActNew 1; ActObsoletes 1;
   ActIntroduce 0; ActIntroduce 1; ActReturn 0; ActReturn 1].

(** A goroutine is about to send its introduction when the index is
    closed and the loop exits. *)
Definition closing : list action :=
  [ActCall segment_a ["a"%string] ∅; ActNew 0; ActObsoletes 0;
   ActClose; ActLoopExit].

(** The index after [2^64 - 2] introductions. *)
Definition worn : System :=
  {| scorch := N.iter (2 ^ 64 - 2) next_introduction (Open NewScorch);
     threads := [] |}.

(** [prepareSegment] for a batch that writes "a", on [root_a]: the
    introduction with its obsoletes and the events of the goroutine. *)
Definition obsoletes_a : segmentIntroduction * list Event :=
  prepareSegment_obsoletes root_a
    (prepareSegment_new (Open NewScorch) segment_a ["a"%string] ∅).1.


(** Two goroutines, one writing "a" and one deleting it, interleaved;
    the second computes its obsoletes after the first introduction has
    been applied. *)
Definition interleaved : list action :=
  [ActCall segment_a ["a"%string] ∅; ActCall mem_New ["a"%string] ∅;
   ActNew 1; ActNew 0; ActObsoletes 0; ActIntroduce 0;
   ActObsoletes 1; ActReturn 0; ActIntroduce 1; ActReturn 1].

End Fixture.

End Scorch.

(** ** Theorems *)

Import Scorch.

Lemma wrap_uint64_small n : n < uint64_modulus → wrap_uint64 n = n.
Proof. intros. unfold wrap_uint64. by apply N.mod_small. Qed.

Lemma wrap_uint64_lt n : wrap_uint64 n < uint64_modulus.
Proof. unfold wrap_uint64. by apply N.mod_lt. Qed.

Lemma wrap_uint64_add_l a b : wrap_uint64 (wrap_uint64 a + b) = wrap_uint64 (a + b).
Proof. unfold wrap_uint64. by rewrite N.Div0.add_mod_idemp_l. Qed.

(** *** Postings, occurrences and document numbers *)

Lemma elem_of_occurrences D docs k n :
  n ∈ occurrences D docs k ↔ (k ≤ n)%nat ∧ docs !! (n - k)%nat = Some D.
Proof.
  revert k. induction docs as [|d docs IH]; intros k; simpl.
  - rewrite elem_of_nil. split; [done|]. intros [_ Hl]. by rewrite lookup_nil in Hl.
  - rewrite elem_of_app, IH. split.
    + intros [Hk|[Hle Hl]].
      * case_bool_decide as Hd; [|by apply elem_of_nil in Hk].
        apply list_elem_of_singleton in Hk as ->. subst d.
        split; [lia|]. by rewrite Nat.sub_diag.
      * split; [lia|]. by replace (n - k)%nat with (S (n - S k)) by lia.
    + intros [Hle Hl]. destruct (decide (n = k)) as [->|Hne].
      * rewrite Nat.sub_diag in Hl. simpl in Hl. injection Hl as ->.
        left. rewrite bool_decide_eq_true_2 by done.
        by apply list_elem_of_singleton.
      * right. split; [lia|].
        by replace (n - k)%nat with (S (n - S k)) in Hl by lia.
Qed.

Lemma postings_occurrences id docs k :
  postings id docs k = list_to_set (occurrences id docs k).
Proof.
  revert k. induction docs as [|d docs IH]; intros k; simpl; [done|].
  rewrite list_to_set_app_L, IH. by case_bool_decide; simpl; [rewrite union_empty_r_L|].
Qed.

Lemma elem_of_DocNumbers seg ids n :
  n ∈ DocNumbers seg ids ↔ ∃ id, id ∈ ids ∧ seg_docs seg !! n = Some id.
Proof.
  unfold DocNumbers. rewrite elem_of_union_list. split.
  - intros (X & HX & Hn). apply list_elem_of_fmap in HX as (id & -> & Hid).
    rewrite postings_occurrences, elem_of_list_to_set, elem_of_occurrences in Hn.
    destruct Hn as [_ Hn]. rewrite Nat.sub_0_r in Hn. eauto.
  - intros (id & Hid & Hn). exists (postings id (seg_docs seg) 0). split.
    + apply list_elem_of_fmap. eauto.
    + rewrite postings_occurrences, elem_of_list_to_set, elem_of_occurrences.
      rewrite Nat.sub_0_r. split; [lia|done].
Qed.

Lemma occurrences_not_in D docs k : D ∉ docs → occurrences D docs k = [].
Proof.
  revert k. induction docs as [|d docs IH]; intros k Hn; simpl; [done|].
  apply not_elem_of_cons in Hn as [Hne Hn].
  rewrite bool_decide_eq_false_2 by done. simpl. by apply IH.
Qed.

Lemma occurrences_NoDup D docs k :
  NoDup docs → (length (occurrences D docs k) ≤ 1)%nat.
Proof.
  revert k. induction docs as [|d docs IH]; intros k Hnd; simpl; [lia|].
  apply NoDup_cons in Hnd as [Hd Hnd]. case_bool_decide as He.
  - subst d. rewrite occurrences_not_in by done. simpl. lia.
  - simpl. by apply IH.
Qed.

(** *** The obsoletes precomputation (lines 143-148) *)

Lemma visit_fold_fields segs acc :
  let acc' := foldl prepareSegment_visit acc segs in
  si_id acc'.1 = si_id acc.1 ∧ si_data acc'.1 = si_data acc.1 ∧
  si_ids acc'.1 = si_ids acc.1 ∧ si_internal acc'.1 = si_internal acc.1 ∧
  acc'.2 = acc.2 ++ (EvDocNumbers ∘ ss_id <$> segs).
Proof.
  revert acc. induction segs as [|entry segs IH]; intros acc; simpl.
  - by rewrite app_nil_r.
  - destruct (IH (prepareSegment_visit acc entry)) as (-> & -> & -> & -> & ->).
    simpl. by rewrite <- app_assoc.
Qed.

Lemma visit_fold_ids segs acc :
  si_ids (foldl prepareSegment_visit acc segs).1 = si_ids acc.1.
Proof. apply visit_fold_fields. Qed.

Lemma visit_fold_obsoletes segs acc :
  si_obsoletes (foldl prepareSegment_visit acc segs).1 =
  foldl (λ m entry, <[ss_id entry := DocNumbers (ss_segment entry) (si_ids acc.1)]> m)
        (si_obsoletes acc.1) segs.
Proof.
  revert acc. induction segs as [|entry segs IH]; intros acc; simpl; [done|].
  by rewrite IH.
Qed.

Lemma fold_insert_lookup_ne (ids : list string) segs (m : gmap N (gset nat)) id :
  id ∉ ss_id <$> segs →
  foldl (λ m entry, <[ss_id entry := DocNumbers (ss_segment entry) ids]> m) m segs !! id
  = m !! id.
Proof.
  revert m. induction segs as [|entry segs IH]; intros m Hn; simpl; [done|].
  rewrite fmap_cons in Hn. apply not_elem_of_cons in Hn as [Hne Hn].
  rewrite IH by done. by rewrite lookup_insert_ne.
Qed.

Lemma fold_insert_lookup (ids : list string) segs (m : gmap N (gset nat)) entry :
  NoDup (ss_id <$> segs) → entry ∈ segs →
  foldl (λ m entry, <[ss_id entry := DocNumbers (ss_segment entry) ids]> m) m segs
    !! ss_id entry = Some (DocNumbers (ss_segment entry) ids).
Proof.
  revert m. induction segs as [|e segs IH]; intros m Hnd Hin; simpl.
  - by apply elem_of_nil in Hin.
  - rewrite fmap_cons in Hnd. apply NoDup_cons in Hnd as [Hfresh Hnd].
    apply elem_of_cons in Hin as [->|Hin].
    + rewrite fold_insert_lookup_ne by done. by rewrite lookup_insert_eq.
    + by apply IH.
Qed.

Lemma fold_insert_dom (ids : list string) segs (m : gmap N (gset nat)) :
  dom (foldl (λ m entry, <[ss_id entry := DocNumbers (ss_segment entry) ids]> m) m segs)
  = dom m ∪ list_to_set (ss_id <$> segs).
Proof.
  revert m. induction segs as [|e segs IH]; intros m; simpl.
  - by rewrite union_empty_r_L.
  - rewrite IH, dom_insert_L. set_solver.
Qed.

(** *** The analysis phase of Batch (lines 73-123) *)

Lemma filter_none {A} (P : A → Prop) `{!∀ x, Decision (P x)} (l : list A) :
  (∀ x, x ∈ l → ¬ P x) → filter P l = [].
Proof.
  induction l as [|x l IH]; intros Hall; [done|].
  rewrite filter_cons. destruct (decide (P x)) as [HP|_].
  - destruct (Hall x); [by left|done].
  - apply IH. intros y Hy. apply Hall. by right.
Qed.

Section AnalysisFacts.

Context (IndexField StoreField : Z) {TF : Type} (fa : Field → Z * TF).

Lemma Batch_dispatch_upserts order : Batch_dispatch order = upserts order.
Proof.
unfold Batch_dispatch, upserts.
enough (∀ acc, foldl (λ queue (e : string * option positive),
                 match e.2 with Some doc => queue ++ [doc] | None => queue end)
               acc order = acc ++ omap snd order) as H by apply (H []).
induction order as [|[k [p|]] order IH]; intros acc; simpl.
- by rewrite app_nil_r.
- rewrite IH. by rewrite <- app_assoc.
- apply IH.
Qed.

Lemma scan_fold_ids order st :
ids (foldl (Batch_scan_entry IndexField StoreField) st order) = ids st ++ order.*1.
Proof.
revert st. induction order as [|[k v] order IH]; intros st; simpl.
- by rewrite app_nil_r.
- rewrite IH. destruct v; simpl; by rewrite <- app_assoc.
Qed.

Lemma scan_fold_numUpdates order st :
numUpdates st < uint64_modulus →
numUpdates (foldl (Batch_scan_entry IndexField StoreField) st order)
= wrap_uint64 (numUpdates st + N.of_nat (length (upserts order))).
Proof.
revert st. induction order as [|[k v] order IH]; intros st Hlt; simpl.
- by rewrite N.add_0_r, wrap_uint64_small.
- destruct v as [p|]; simpl.
  + rewrite IH by apply wrap_uint64_lt. simpl.
    rewrite wrap_uint64_add_l. f_equal. lia.
  + by rewrite IH.
Qed.

Lemma with_ids_S k d :
with_ids IndexField StoreField k (AddField d (id_field IndexField StoreField d))
= with_ids IndexField StoreField (S k) d.
Proof.
unfold with_ids, AddField, id_field. simpl. f_equal.
by rewrite <- app_assoc.
Qed.

Lemma scan_fold_heap order st p :
sc_heap (foldl (Batch_scan_entry IndexField StoreField) st order) !! p
= with_ids IndexField StoreField (length (filter (λ e, e.2 = Some p) order))
    <$> sc_heap st !! p.
Proof.
revert st. induction order as [|[k v] order IH]; intros st; simpl.
- destruct (sc_heap st !! p) as [[]|]; simpl; [|done].
  unfold with_ids. simpl. by rewrite app_nil_r.
- rewrite IH. destruct v as [q|]; simpl.
  + rewrite filter_cons. simpl.
    destruct (decide (q = p)) as [->|Hne].
    * rewrite lookup_alter_eq.
      destruct (decide (Some p = Some p)); [|congruence]. simpl.
      destruct (sc_heap st !! p) as [d|]; simpl; [|done].
      by rewrite with_ids_S.
    * rewrite lookup_alter_ne by done.
      destruct (decide (Some q = Some p)); [congruence|done].
  + rewrite filter_cons. simpl.
    by destruct (decide (@None positive = Some p)).
Qed.

Lemma Analyze_fields_Document i fields (rv : AnalysisResult TF) :
ar_Document (Analyze_fields IndexField fa i fields rv) = ar_Document rv.
Proof.
revert i rv. induction fields as [|f fields IH]; intros i rv; simpl; [done|].
rewrite IH. destruct (IsIndexed IndexField (f_options f)); [|done].
by destruct (fa f).
Qed.

Lemma Analyze_Document p d : ar_Document (Analyze IndexField fa p d) = p.
Proof. unfold Analyze. by rewrite Analyze_fields_Document. Qed.

(** Entries of the result arrays below the index the loop starts from
  are left as they are. *)
Lemma Analyze_fields_below i fields (rv : AnalysisResult TF) j :
(j < i)%nat →
Analyzed (Analyze_fields IndexField fa i fields rv) !! j = Analyzed rv !! j ∧
Length (Analyze_fields IndexField fa i fields rv) !! j = Length rv !! j.
Proof.
revert i rv. induction fields as [|f fields IH]; intros i rv Hlt; simpl; [done|].
destruct (IH (S i)
  (if IsIndexed IndexField (f_options f)
   then let '(fieldLength, tokenFreqs) := fa f in
        {| ar_Document := ar_Document rv;
           Analyzed := <[i:=Some tokenFreqs]> (Analyzed rv);
           Length := <[i:=fieldLength]> (Length rv) |}
   else rv) ltac:(lia)) as [-> ->].
destruct (IsIndexed IndexField (f_options f)); [|done].
destruct (fa f) as [len tf]. simpl.
rewrite !list_lookup_insert_ne by lia. done.
Qed.

(** The [k]-th field of the document, when indexed, is analysed and
  its token frequencies are stored at index [k] of the result. *)
Lemma Analyze_fields_at i fields (rv : AnalysisResult TF) k f :
fields !! k = Some f → IsIndexed IndexField (f_options f) = true →
(i + k < length (Analyzed rv))%nat →
Analyzed (Analyze_fields IndexField fa i fields rv) !! (i + k)%nat
= Some (Some (fa f).2).
Proof.
revert i rv k. induction fields as [|g fields IH]; intros i rv k Hk Hix Hlen.
- by rewrite lookup_nil in Hk.
- destruct k as [|k]; simpl in *.
  + injection Hk as ->. rewrite Hix. destruct (fa f) as [len tf] eqn:Hfa.
    rewrite Nat.add_0_r.
    destruct (Analyze_fields_below (S i) fields
      {| ar_Document := ar_Document rv;
         Analyzed := <[i:=Some tf]> (Analyzed rv);
         Length := <[i:=len]> (Length rv) |} i ltac:(lia)) as [-> _].
    simpl. rewrite list_lookup_insert_eq by (rewrite Nat.add_0_r in Hlen; lia).
    done.
  + replace (i + S k)%nat with (S i + k)%nat by lia. apply IH; [done..|].
    destruct (IsIndexed IndexField (f_options g)); [|lia].
    destruct (fa g). simpl. rewrite length_insert. lia.
Qed.

Lemma Analyze_at p d k f :
Fields d !! k = Some f → IsIndexed IndexField (f_options f) = true →
Analyzed (Analyze IndexField fa p d) !! k = Some (Some (fa f).2).
Proof.
intros Hk Hix. unfold Analyze.
apply (Analyze_fields_at 0 (Fields d) _ k f Hk Hix). simpl.
rewrite length_replicate. apply lookup_lt_Some in Hk. lia.
Qed.

Lemma run_workers_length (h : gmap positive Document) queue :
(∀ p, p ∈ queue → is_Some (h !! p)) →
length (run_workers IndexField fa h queue) = length queue.
Proof.
induction queue as [|p queue IH]; intros Hall; simpl; [done|].
destruct (Hall p) as [d Hd]; [by left|]. rewrite Hd. simpl.
rewrite IH; [done|]. intros q Hq. apply Hall. by right.
Qed.

Lemma elem_of_run_workers (h : gmap positive Document) queue r :
r ∈ run_workers IndexField fa h queue ↔
∃ p d, p ∈ queue ∧ h !! p = Some d ∧ r = Analyze IndexField fa p d.
Proof.
unfold run_workers. rewrite list_elem_of_omap. split.
- intros (p & Hp & Hr). destruct (h !! p) as [d|] eqn:Hd; [|done].
  simpl in Hr. injection Hr as <-. eauto.
- intros (p & d & Hp & Hd & ->). exists p. by rewrite Hd.
Qed.

(** The receive loop takes the next [numUpdates - itemsDeQueued]
  results off the channel, neither more nor fewer, and blocks when
  fewer arrive. *)
Lemma Batch_wait_spec (chan : list (AnalysisResult TF)) n i res :
n < uint64_modulus → i ≤ n → length res = N.to_nat n →
Batch_wait chan n i res =
  if decide (N.to_nat (n - i) ≤ length chan)%nat
  then Some (take (N.to_nat i) res ++ (Some <$> take (N.to_nat (n - i)) chan),
             drop (N.to_nat (n - i)) chan)
  else None.
Proof.
intros Hn. revert i res.
induction chan as [|r chan IH]; intros i res Hi Hlen; simpl.
- destruct (N.ltb_spec i n) as [Hlt|Hge].
  + rewrite decide_False by (simpl; lia). done.
  + replace (n - i) with 0 by lia. simpl.
    replace i with n by lia. rewrite take_ge by lia.
    by rewrite app_nil_r.
- destruct (N.ltb_spec i n) as [Hlt|Hge].
  + rewrite wrap_uint64_small by (unfold uint64_modulus in *; lia).
    rewrite IH by (rewrite ?length_insert; lia).
    replace (N.to_nat (n - i)) with (S (N.to_nat (n - (i + 1)))) by lia.
    simpl. destruct (decide (N.to_nat (n - (i + 1)) ≤ length chan)%nat).
    * rewrite decide_True by lia. f_equal. f_equal.
      replace (N.to_nat (i + 1)) with (S (N.to_nat i)) by lia.
      rewrite (take_S_r _ _ (Some r))
        by (apply list_lookup_insert_eq; lia).
      rewrite take_insert_ge by lia. by rewrite <- app_assoc.
    * rewrite decide_False by lia. done.
  + replace (n - i) with 0 by lia. simpl.
    replace i with n by lia. rewrite take_ge by lia.
    by rewrite app_nil_r.
Qed.

Lemma NewFromAnalyzedDocs_Some (h : gmap positive Document)
  (rs : list (AnalysisResult TF)) :
Forall (λ r, is_Some (h !! ar_Document r)) rs →
∃ docs, NewFromAnalyzedDocs h (Some <$> rs) = Some {| seg_docs := docs |} ∧
        Forall2 (λ r id, ∃ d, h !! ar_Document r = Some d ∧ ID d = id) rs docs.
Proof.
intros Hall. unfold NewFromAnalyzedDocs.
enough (∃ docs,
  mapM (λ r : option (AnalysisResult TF),
          r' ← r; d ← h !! ar_Document r'; Some (ID d)) (Some <$> rs)
  = Some docs ∧
  Forall2 (λ r id, ∃ d, h !! ar_Document r = Some d ∧ ID d = id) rs docs)
  as (docs & -> & Hf) by (exists docs; done).
induction Hall as [|r rs [d Hd] Hall (docs & Hm & Hf)].
- exists []. split; [done|constructor].
- exists (ID d :: docs). split.
  + apply mapM_Some_2. rewrite fmap_cons. constructor.
    * simpl. by rewrite Hd.
    * by apply mapM_Some_1.
  + constructor; [eauto|done].
Qed.

Lemma upserts_Permutation (m : gmap string (option positive)) order :
  order ≡ₚ map_to_list m → upserts order ≡ₚ upserts (map_to_list m).
Proof. intros Hp. unfold upserts. by rewrite Hp. Qed.

Lemma elem_of_upserts (m : gmap string (option positive)) order p :
  order ≡ₚ map_to_list m →
  p ∈ upserts order ↔ ∃ docID, m !! docID = Some (Some p).
Proof.
  intros Hp. unfold upserts. rewrite list_elem_of_omap. split.
  - intros ([k v] & Hin & Hv). simpl in Hv. subst v. exists k.
    rewrite Hp in Hin. by apply elem_of_map_to_list in Hin.
  - intros (k & Hk). exists (k, Some p). split; [|done].
    rewrite Hp. by apply elem_of_map_to_list.
Qed.

Lemma upserts_length_le (m : gmap string (option positive)) :
  (length (upserts (map_to_list m)) ≤ size m)%nat.
Proof.
  rewrite <- length_map_to_list. unfold upserts.
  generalize (map_to_list m). intros l.
  induction l as [|[k [p|]] l IH]; cbn; [lia| |lia].
  change (S (length (omap snd l)) ≤ S (length l))%nat. lia.
Qed.

Lemma with_ids_0 d : with_ids IndexField StoreField 0 d = d.
Proof. destruct d. unfold with_ids. simpl. by rewrite app_nil_r. Qed.

Lemma scan_heap_allocated h order p :
  is_Some (h !! p) →
  is_Some (sc_heap (Batch_scan IndexField StoreField h order) !! p).
Proof.
  intros [d Hd]. unfold Batch_scan. rewrite scan_fold_heap. simpl.
  rewrite Hd. simpl. eauto.
Qed.

Lemma land_lor_l (a b : Z) : Z.land (Z.lor a b) a = a.
Proof.
  apply Z.bits_inj'. intros n _. rewrite Z.land_spec, Z.lor_spec.
  by destruct (Z.testbit a n), (Z.testbit b n).
Qed.

Lemma land_lor_r (a b : Z) : Z.land (Z.lor a b) b = b.
Proof. by rewrite Z.lor_comm, land_lor_l. Qed.

End AnalysisFacts.

(** C5. Every non-nil document of a batch gets, in the scan that runs
    before the analysis work is queued, a field named "_id" holding the
    bytes of the document's ID with options [IndexField|StoreField], which
    make it indexed and stored; the document is queued and analysed with
    that field.  Tombstones are not queued, and no document other than
    the upserted ones is touched. *)
Theorem identity_field_injected (IndexField StoreField : Z) {TF : Type}
    (fa : Field → Z * TF) (nd : nondet TF) (h : gmap positive Document)
    (batch : index.Batch) (docID : string) (doc : positive) (d : Document) :
  nondet_ok nd →
  index.IndexOps batch !! docID = Some (Some doc) →
  h !! doc = Some d →
  let st := Batch_scan IndexField StoreField h
              (range_scan nd (index.IndexOps batch)) in
  let queue := Batch_dispatch (range_dispatch nd (index.IndexOps batch)) in
  let idf := id_field IndexField StoreField d in
  f_name idf = "_id"%string ∧
  f_value idf = String.list_byte_of_string (ID d) ∧
  f_options idf = Z.lor IndexField StoreField ∧
  (IndexField ≠ 0%Z → IsIndexed IndexField (f_options idf) = true) ∧
  (StoreField ≠ 0%Z → IsStored StoreField (f_options idf) = true) ∧
  (∃ k, (0 < k)%nat ∧
        sc_heap st !! doc = Some (with_ids IndexField StoreField k d)) ∧
  doc ∈ queue ∧
  (∃ r, r ∈ run_workers IndexField fa (sc_heap st) queue ∧ ar_Document r = doc) ∧
  (∀ r, r ∈ run_workers IndexField fa (sc_heap st) queue →
        ar_Document r = doc → IndexField ≠ 0%Z →
        Analyzed r !! length (Fields d) = Some (Some (fa idf).2)) ∧
  (∀ q, (∀ k, index.IndexOps batch !! k ≠ Some (Some q)) →
        sc_heap st !! q = h !! q ∧ q ∉ queue).
Proof.
  intros (Hscan & Hdisp & Hdel) Hop Hd st queue idf.
  assert (Hix : IndexField ≠ 0%Z → IsIndexed IndexField (f_options idf) = true).
  { intros Hne. unfold IsIndexed. simpl. rewrite land_lor_l.
    by apply negb_true_iff, Z.eqb_neq. }
  assert (Hheap : ∃ k, (0 < k)%nat ∧
            sc_heap st !! doc = Some (with_ids IndexField StoreField k d)).
  { eexists. split; [|subst st; unfold Batch_scan; rewrite scan_fold_heap;
                      simpl; by rewrite Hd].
    assert (Hin : (docID, Some doc) ∈
              filter (λ e : string * option positive, e.2 = Some doc)
                     (range_scan nd (index.IndexOps batch))).
    { apply list_elem_of_filter. split; [done|].
      rewrite Hscan. by apply elem_of_map_to_list. }
    destruct (filter _ _); [by apply elem_of_nil in Hin|simpl; lia]. }
  assert (Hq : doc ∈ queue).
  { subst queue. rewrite Batch_dispatch_upserts.
    apply (elem_of_upserts (index.IndexOps batch)); eauto. }
  split_and!; try done.
  - intros Hne. unfold IsStored. simpl. rewrite land_lor_r.
    by apply negb_true_iff, Z.eqb_neq.
  - destruct Hheap as (k & Hk & Hl). eexists. split; [|apply Analyze_Document].
    apply elem_of_run_workers. eauto.
  - intros r Hr Hdoc Hne. apply elem_of_run_workers in Hr as (p & d' & _ & Hp & ->).
    rewrite Analyze_Document in Hdoc. subst p.
    destruct Hheap as (k & Hk & Hl). rewrite Hl in Hp. injection Hp as <-.
    apply Analyze_at; [|by apply Hix].
    simpl. rewrite lookup_app_r by done. rewrite Nat.sub_diag.
    destruct k; [lia|done].
  - intros q Hnone. split.
    + subst st. unfold Batch_scan. rewrite scan_fold_heap. simpl.
      replace (filter _ _) with (@nil (string * option positive)).
      * simpl. destruct (h !! q); simpl; [|done]. by rewrite with_ids_0.
      * symmetry. apply filter_none. intros [k v] Hin Hv. simpl in Hv. subst v.
        rewrite Hscan in Hin. apply elem_of_map_to_list in Hin. by eapply Hnone.
    + subst queue. rewrite Batch_dispatch_upserts.
      rewrite (elem_of_upserts (index.IndexOps batch)) by done.
      intros [k Hk]. by eapply Hnone.
Qed.

Lemma Batch_counts (IndexField StoreField : Z) {TF : Type}
    (fa : Field → Z * TF) (nd : nondet TF) (h : gmap positive Document)
    (batch : index.Batch) :
  nondet_ok nd →
  N.of_nat (size (index.IndexOps batch)) < uint64_modulus →
  (∀ docID doc, index.IndexOps batch !! docID = Some (Some doc) →
                is_Some (h !! doc)) →
  let n := length (upserts (map_to_list (index.IndexOps batch))) in
  let st := Batch_scan IndexField StoreField h
              (range_scan nd (index.IndexOps batch)) in
  let queue := Batch_dispatch (range_dispatch nd (index.IndexOps batch)) in
  let resultChan := deliver nd (run_workers IndexField fa (sc_heap st) queue) in
  numUpdates st = N.of_nat n ∧ numUpdates st < uint64_modulus ∧
  queue ≡ₚ upserts (map_to_list (index.IndexOps batch)) ∧
  (∀ p, p ∈ queue → is_Some (sc_heap st !! p)) ∧
  length resultChan = n.
Proof.
  intros (Hscan & Hdisp & Hdel) Hsize Halloc n st queue resultChan.
  pose proof (upserts_length_le (index.IndexOps batch)) as Hle. fold n in Hle.
  assert (Hnum : numUpdates st = N.of_nat n).
  { subst st. unfold Batch_scan. rewrite scan_fold_numUpdates by done. simpl.
    rewrite (Permutation_length (upserts_Permutation _ _ (Hscan _))). fold n.
    apply wrap_uint64_small. unfold uint64_modulus in *. lia. }
  assert (Hqueue : queue ≡ₚ upserts (map_to_list (index.IndexOps batch))).
  { subst queue. rewrite Batch_dispatch_upserts. by apply upserts_Permutation. }
  assert (Hq : ∀ p, p ∈ queue → is_Some (sc_heap st !! p)).
  { intros p Hp. apply scan_heap_allocated. rewrite Hqueue in Hp.
    apply (elem_of_upserts (index.IndexOps batch)) in Hp as [k Hk]; eauto. }
  split_and!; [done| |done|done|].
  - rewrite Hnum. unfold uint64_modulus in *. lia.
  - subst resultChan. rewrite (Permutation_length (Hdel _)).
    rewrite run_workers_length by done. by rewrite Hqueue.
Qed.

(** The new segment holds one document per delivered result, in the
    order of delivery, under the ID the document has on the heap. *)
Lemma Batch_analysis_result (IndexField StoreField : Z) {TF : Type}
    (fa : Field → Z * TF) (nd : nondet TF) (h : gmap positive Document)
    (batch : index.Batch) :
  nondet_ok nd →
  N.of_nat (size (index.IndexOps batch)) < uint64_modulus →
  (∀ docID doc, index.IndexOps batch !! docID = Some (Some doc) →
                is_Some (h !! doc)) →
  let st := Batch_scan IndexField StoreField h
              (range_scan nd (index.IndexOps batch)) in
  let queue := Batch_dispatch (range_dispatch nd (index.IndexOps batch)) in
  let resultChan := deliver nd (run_workers IndexField fa (sc_heap st) queue) in
  ∃ docs,
    Batch_analysis IndexField StoreField fa nd h batch
    = Some (sc_heap st, {| seg_docs := docs |}, ids st) ∧
    Forall2 (λ r id, ∃ d, sc_heap st !! ar_Document r = Some d ∧ ID d = id)
            resultChan docs.
Proof.
  intros Hnd Hsize Halloc st queue resultChan.
  destruct (Batch_counts IndexField StoreField fa nd h batch Hnd Hsize Halloc)
    as (Hnum & Hlt & Hqueue & Hq & Hlen).
  fold st queue resultChan in Hnum, Hlt, Hqueue, Hq, Hlen.
  destruct Hnd as (Hscan & Hdisp & Hdel).
  unfold Batch_analysis. fold st queue resultChan.
  rewrite Batch_wait_spec by (rewrite ?length_replicate; lia || done).
  rewrite N.sub_0_r, Hnum, Nat2N.id, <- Hlen, decide_True by lia.
  rewrite firstn_all, drop_all. simpl. rewrite length_fmap.
  case_bool_decide as Hpos.
  - destruct (NewFromAnalyzedDocs_Some (sc_heap st) resultChan)
      as (docs & -> & Hdocs).
    + apply Forall_forall. intros r Hr. subst resultChan.
      rewrite Hdel in Hr. apply elem_of_run_workers in Hr as (p & d & Hp & Hd & ->).
      rewrite Analyze_Document. eauto.
    + simpl. by exists docs.
  - exists []. simpl. split; [done|].
    destruct resultChan; [constructor|simpl in Hpos; lia].
Qed.

(** C6. [Batch] waits for exactly as many analysis results as the batch
    has non-nil documents: that many works are queued (one per upsert,
    none for a tombstone, none for an internal operation), the receive
    loop returns once that many results have arrived, takes no result
    beyond them, blocks while fewer have arrived, and the new segment is
    built from the complete set of results. *)
Theorem Batch_waits_for_every_upsert (IndexField StoreField : Z) {TF : Type}
    (fa : Field → Z * TF) (nd : nondet TF) (h : gmap positive Document)
    (batch : index.Batch) :
  nondet_ok nd →
  N.of_nat (size (index.IndexOps batch)) < uint64_modulus →
  (∀ docID doc, index.IndexOps batch !! docID = Some (Some doc) →
                is_Some (h !! doc)) →
  let n := length (upserts (map_to_list (index.IndexOps batch))) in
  let st := Batch_scan IndexField StoreField h
              (range_scan nd (index.IndexOps batch)) in
  let queue := Batch_dispatch (range_dispatch nd (index.IndexOps batch)) in
  let resultChan := deliver nd (run_workers IndexField fa (sc_heap st) queue) in
  let slots := replicate (N.to_nat (numUpdates st)) None in
  numUpdates st = N.of_nat n ∧
  queue ≡ₚ upserts (map_to_list (index.IndexOps batch)) ∧
  length resultChan = n ∧
  (∀ extra, Batch_wait (resultChan ++ extra) (numUpdates st) 0 slots
            = Some (Some <$> resultChan, extra)) ∧
  (∀ chan, (length chan < n)%nat →
           Batch_wait chan (numUpdates st) 0 slots = None) ∧
  ∃ newSegment,
    Batch_analysis IndexField StoreField fa nd h batch
    = Some (sc_heap st, newSegment, ids st) ∧
    length (seg_docs newSegment) = n.
Proof.
  intros Hnd Hsize Halloc n st queue resultChan slots.
  destruct (Batch_counts IndexField StoreField fa nd h batch Hnd Hsize Halloc)
    as (Hnum & Hlt & Hqueue & Hq & Hlen).
  fold n st queue resultChan in Hnum, Hlt, Hqueue, Hq, Hlen.
  split_and!; try done.
  - intros extra. rewrite Batch_wait_spec;
      [|done|lia|subst slots; by rewrite length_replicate].
    rewrite N.sub_0_r, Hnum, Nat2N.id, <- Hlen.
    rewrite decide_True by (rewrite length_app; lia).
    simpl. by rewrite take_app_length, drop_app_length.
  - intros chan Hshort. rewrite Batch_wait_spec;
      [|done|lia|subst slots; by rewrite length_replicate].
    rewrite N.sub_0_r, Hnum, Nat2N.id. by rewrite decide_False by lia.
  - destruct (Batch_analysis_result IndexField StoreField fa nd h batch
                Hnd Hsize Halloc) as (docs & Hb & Hdocs).
    fold st queue resultChan in Hb, Hdocs.
    eexists. split; [exact Hb|]. simpl.
    by rewrite <- (Forall2_length _ _ _ Hdocs).
Qed.

Lemma Batch_analysis_ids (IndexField StoreField : Z) {TF : Type}
    (fa : Field → Z * TF) (nd : nondet TF) (h h1 : gmap positive Document)
    (batch : index.Batch) newSegment idl :
  Batch_analysis IndexField StoreField fa nd h batch = Some (h1, newSegment, idl) →
  idl = (range_scan nd (index.IndexOps batch)).*1.
Proof.
  unfold Batch_analysis. intros Hb.
  destruct (Batch_wait _ _ _ _) as [[rs rest]|]; simpl in Hb; [|done].
  destruct (if bool_decide _ then _ else _) as [seg|]; simpl in Hb; [|done].
  injection Hb as _ _ <-. unfold Batch_scan. by rewrite scan_fold_ids.
Qed.

(** For a batch whose upserts are keyed by the ID of their document, the
    new segment holds the keys of the upserts, in the order in which
    the results were delivered, and the list of IDs holds the keys. *)
Lemma Batch_segment_docs (IndexField StoreField : Z) {TF : Type}
    (fa : Field → Z * TF) (nd : nondet TF) (h : gmap positive Document)
    (batch : index.Batch) :
  nondet_ok nd →
  N.of_nat (size (index.IndexOps batch)) < uint64_modulus →
  (∀ docID doc, index.IndexOps batch !! docID = Some (Some doc) →
                ∃ d, h !! doc = Some d ∧ ID d = docID) →
  let st := Batch_scan IndexField StoreField h
              (range_scan nd (index.IndexOps batch)) in
  ∃ docs,
    Batch_analysis IndexField StoreField fa nd h batch
    = Some (sc_heap st, {| seg_docs := docs |}, ids st) ∧
    docs ≡ₚ (filter (λ e : string * option positive, is_Some e.2)
                    (map_to_list (index.IndexOps batch))).*1 ∧
    ids st ≡ₚ (map_to_list (index.IndexOps batch)).*1.
Proof.
  intros Hnd Hsize Hkeyed st.
  assert (Halloc : ∀ docID doc, index.IndexOps batch !! docID = Some (Some doc) →
                                is_Some (h !! doc)).
  { intros k p Hk. destruct (Hkeyed k p Hk) as (d & -> & _). eauto. }
  destruct (Batch_analysis_result IndexField StoreField fa nd h batch
              Hnd Hsize Halloc) as (docs & Hb & Hdocs).
  destruct (Batch_counts IndexField StoreField fa nd h batch Hnd Hsize Halloc)
    as (_ & _ & Hqueue & Hq & _).
  destruct Hnd as (Hscan & Hdisp & Hdel).
  fold st in Hb, Hdocs, Hqueue, Hq.
  set (queue := Batch_dispatch (range_dispatch nd (index.IndexOps batch))) in *.
  set (m := index.IndexOps batch) in *.
  set (idOf := λ p : positive, from_option ID ""%string (sc_heap st !! p)).
  assert (Hkeyed' : ∀ k p, m !! k = Some (Some p) → idOf p = k).
  { intros k p Hk. destruct (Hkeyed k p Hk) as (d & Hd & <-).
    unfold idOf. subst st. unfold Batch_scan. rewrite scan_fold_heap. simpl.
    by rewrite Hd. }
  assert (Hd1 : docs = (idOf ∘ ar_Document) <$> deliver nd
                  (run_workers IndexField fa (sc_heap st) queue)).
  { clear -Hdocs. induction Hdocs as [|r id rs docs (d & Hd & <-) _ IH]; [done|].
    rewrite fmap_cons, <- IH. f_equal. unfold idOf. simpl. by rewrite Hd. }
  assert (Hd2 : (idOf ∘ ar_Document) <$> run_workers IndexField fa (sc_heap st) queue
                = idOf <$> queue).
  { clear -Hq. induction queue as [|p queue IH]; [done|]. simpl.
    destruct (Hq p) as [d Hd]; [by left|]. rewrite Hd. simpl.
    rewrite Analyze_Document. f_equal. apply IH. intros q Hin. apply Hq. by right. }
  assert (Hd3 : idOf <$> upserts (map_to_list m)
                = (filter (λ e : string * option positive, is_Some e.2)
                          (map_to_list m)).*1).
  { assert (Hall : ∀ k p, (k, Some p) ∈ map_to_list m → idOf p = k).
    { intros k p Hin. apply Hkeyed'. by apply elem_of_map_to_list. }
    clear -Hall. unfold upserts.
    induction (map_to_list m) as [|[k [p|]] l IH].
    - done.
    - rewrite filter_cons, decide_True by (simpl; eauto).
      cbn. rewrite (Hall k p) by (by left). f_equal.
      apply IH. intros k' p' Hin. apply Hall. by right.
    - rewrite filter_cons, decide_False by (simpl; by intros []).
      cbn. apply IH. intros k' p' Hin. apply Hall. by right. }
  exists docs. split_and!; [done| |].
  - rewrite Hd1, (Hdel _), Hd2, Hqueue. by rewrite Hd3.
  - subst st. unfold Batch_scan. rewrite scan_fold_ids. simpl. by rewrite Hscan.
Qed.

(** For a batch whose upserts are keyed by the ID of their document, the
    arguments [Batch] passes to [prepareSegment] are a segment holding
    each upserted ID once and a list of IDs holding every ID of the
    segment. *)
Lemma Batch_call_args_ok (IndexField StoreField : Z) {TF : Type}
    (fa : Field → Z * TF) (nd : nondet TF) (h h1 : gmap positive Document)
    (batch : index.Batch) newSegment idl :
  nondet_ok nd →
  N.of_nat (size (index.IndexOps batch)) < uint64_modulus →
  (∀ docID doc, index.IndexOps batch !! docID = Some (Some doc) →
                ∃ d, h !! doc = Some d ∧ ID d = docID) →
  Batch_analysis IndexField StoreField fa nd h batch = Some (h1, newSegment, idl) →
  action_ok (ActCall newSegment idl (index.InternalOps batch)).
Proof.
  intros Hnd Hsize Hkeyed Hb. simpl.
  destruct (Batch_segment_docs IndexField StoreField fa nd h batch
              Hnd Hsize Hkeyed) as (docs & Hb' & Hperm & Hids).
  rewrite Hb in Hb'. injection Hb' as -> -> ->. simpl. split.
  - rewrite Hperm.
    apply (sublist_NoDup _ (map_to_list (index.IndexOps batch)).*1).
    + apply NoDup_fst_map_to_list.
    + apply fmap_sublist, sublist_filter.
  - intros id Hid. rewrite Hids. rewrite Hperm in Hid.
    apply list_elem_of_fmap in Hid as (e & -> & He).
    apply list_elem_of_filter in He as [_ He].
    apply list_elem_of_fmap. eauto.
Qed.

(** C3. The obsoletes map of a batch's introduction has exactly one entry
    per segment of the root snapshot read under the lock (segment IDs
    being distinct), and the entry of a segment is the set of document
    numbers that segment reports for the batch's list of IDs, which
    holds the ID of every upsert and of every delete of the batch once. *)
Theorem obsoletes_content (IndexField StoreField : Z) {TF : Type}
    (fa : Field → Z * TF) (nd : nondet TF) (h h1 : gmap positive Document)
    (batch : index.Batch) (s : Scorch) (r : IndexSnapshot)
    (newSegment : Segment) (idl : list string) :
  nondet_ok nd →
  Batch_analysis IndexField StoreField fa nd h batch = Some (h1, newSegment, idl) →
  NoDup (ss_id <$> is_segment r) →
  let introduction :=
    (prepareSegment_obsoletes r
       (prepareSegment_new s newSegment idl (index.InternalOps batch)).1).1 in
  idl ≡ₚ (map_to_list (index.IndexOps batch)).*1 ∧
  (∀ id, id ∈ idl ↔ is_Some (index.IndexOps batch !! id)) ∧
  si_ids introduction = idl ∧
  dom (si_obsoletes introduction) = list_to_set (ss_id <$> is_segment r) ∧
  size (si_obsoletes introduction) = length (is_segment r) ∧
  (∀ entry, entry ∈ is_segment r →
     si_obsoletes introduction !! ss_id entry
     = Some (DocNumbers (ss_segment entry) idl)).
Proof.
  intros (Hscan & _ & _) Hb Hnd introduction.
  apply Batch_analysis_ids in Hb. subst idl.
  assert (Hperm : (range_scan nd (index.IndexOps batch)).*1
                  ≡ₚ (map_to_list (index.IndexOps batch)).*1)
    by (by rewrite Hscan).
  assert (Hdom : dom (si_obsoletes introduction)
                 = list_to_set (ss_id <$> is_segment r)).
  { subst introduction. unfold prepareSegment_obsoletes. simpl.
    rewrite visit_fold_obsoletes, fold_insert_dom. simpl.
    by rewrite dom_empty_L, union_empty_l_L. }
  split_and!; try done.
  - intros id. rewrite Hperm. rewrite list_elem_of_fmap. split.
    + intros ([k v] & -> & Hin). apply elem_of_map_to_list in Hin. eauto.
    + intros [v Hv]. exists (id, v). split; [done|]. by apply elem_of_map_to_list.
  - subst introduction. unfold prepareSegment_obsoletes. simpl.
    by rewrite visit_fold_ids.
  - rewrite <- size_dom, Hdom. rewrite size_list_to_set by done.
    by rewrite length_fmap.
  - intros entry Hin. subst introduction. unfold prepareSegment_obsoletes. simpl.
    rewrite visit_fold_obsoletes. simpl. by apply fold_insert_lookup.
Qed.

Lemma foldl_lock_DocNumbers l (segs : list N) :
  foldl lock_after l (EvDocNumbers <$> segs) = l.
Proof. revert l. induction segs as [|x segs IH]; intros l; simpl; [done|apply IH]. Qed.

Lemma prepareSegment_obsoletes_events r introduction :
  (prepareSegment_obsoletes r introduction).2
  = EvRLock :: (EvDocNumbers <$> (ss_id <$> is_segment r)) ++ [EvRUnlock].
Proof.
  unfold prepareSegment_obsoletes. simpl.
  destruct (visit_fold_fields (is_segment r) (introduction, [EvRLock]))
    as (_ & _ & _ & _ & ->).
  simpl. by rewrite list_fmap_compose.
Qed.

(** C2. In [prepareSegment] the goroutine takes the read lock, runs one
    [DocNumbers] query per segment of the root, in order, and only then
    releases the lock: every [DocNumbers] query runs while the goroutine
    holds the read lock on the root, and the lock is released when the
    loop is over, before the introduction is sent. *)
Theorem DocNumbers_under_read_lock (r : IndexSnapshot)
    (introduction : segmentIntroduction) :
  let tr := (prepareSegment_obsoletes r introduction).2 in
  tr = EvRLock :: (EvDocNumbers <$> (ss_id <$> is_segment r)) ++ [EvRUnlock] ∧
  (∀ k segment, tr !! k = Some (EvDocNumbers segment) →
                lock_before tr k = ReadLocked) ∧
  lock_before tr (length tr) = Unlocked.
Proof.
  intros tr. subst tr. rewrite prepareSegment_obsoletes_events.
  set (segs := ss_id <$> is_segment r). split_and!; [done| |].
  - intros k segment Hk. destruct k as [|k]; [done|]. simpl in Hk.
    unfold lock_before. simpl.
    assert (Hlt : (k < length (EvDocNumbers <$> segs))%nat).
    { destruct (decide (k < length (EvDocNumbers <$> segs))%nat) as [|Hge]; [done|].
      rewrite lookup_app_r in Hk by lia.
      destruct (k - length (EvDocNumbers <$> segs))%nat; simpl in Hk; [done|].
      by rewrite lookup_nil in Hk. }
    rewrite take_app_le by lia. rewrite <- fmap_take.
    apply foldl_lock_DocNumbers.
  - unfold lock_before. rewrite firstn_all. simpl.
    by rewrite foldl_app, foldl_lock_DocNumbers.
Qed.

(** *** Steps of the system *)

Lemma exec_counter a sys sys' :
  exec a sys = Some sys' →
  nextSegmentID (scorch sys') =
    match a with
    | ActNew _ => wrap_uint64 (nextSegmentID (scorch sys) + 1)
    | _ => nextSegmentID (scorch sys)
    end.
Proof.
  destruct a; simpl; intros He.
  - destruct (mainLoop (scorch sys)); by simplify_eq.
  - unfold Close in He. destruct (closeCh (scorch sys)); simpl in He; by simplify_eq.
  - unfold mainLoop_exit in He.
    destruct (mainLoop (scorch sys)), (closeCh (scorch sys)); simpl in He;
      by simplify_eq.
  - by simplify_eq.
  - destruct (threads sys !! t) as [[]|]; by simplify_eq.
  - destruct (threads sys !! t) as [[]|]; by simplify_eq.
  - unfold mainLoop_turn in He.
    destruct (threads sys !! t) as [[]|], (mainLoop (scorch sys)); simpl in He;
      by simplify_eq.
  - destruct (threads sys !! t) as [[]|]; by simplify_eq.
Qed.

Lemma assigned_closed_form sched sys :
  nextSegmentID (scorch sys) + N.of_nat (length (assigned sched sys))
    < uint64_modulus →
  assigned sched sys =
    (λ i, nextSegmentID (scorch sys) + 1 + N.of_nat i)
      <$> seq 0 (length (assigned sched sys)).
Proof.
  revert sys. induction sched as [|a sched IH]; intros sys Hlt; simpl; [done|].
  simpl in Hlt. destruct (exec a sys) as [sys'|] eqn:He; [|done].
  pose proof (exec_counter _ _ _ He) as Hc.
  destruct a; simpl in *; try (rewrite <- Hc; apply IH; by rewrite Hc).
  rewrite wrap_uint64_small in Hc by (unfold uint64_modulus in *; lia).
  rewrite Hc, N.add_0_r. f_equal.
  etrans; [apply IH; rewrite Hc; lia|].
  rewrite Hc, <- fmap_S_seq, <- list_fmap_compose.
  apply list_fmap_ext. intros _ i _. simpl. lia.
Qed.

(** C8 (as amended). Every introduction takes the incremented value of
    the one counter, so the IDs handed out by any schedule are the
    consecutive counter values: they increase strictly in the order of
    assignment and none is handed out twice, as long as the 64-bit
    counter does not wrap around. *)
Theorem segment_ids_increase (sched : list action) (sys : System) :
  nextSegmentID (scorch sys) + N.of_nat (length (assigned sched sys))
    < uint64_modulus →
  assigned sched sys =
    (λ i, nextSegmentID (scorch sys) + 1 + N.of_nat i)
      <$> seq 0 (length (assigned sched sys)) ∧
  (∀ i j idi idj, assigned sched sys !! i = Some idi →
                  assigned sched sys !! j = Some idj →
                  (i < j)%nat → idi < idj) ∧
  NoDup (assigned sched sys) ∧
  Forall (λ id, nextSegmentID (scorch sys) < id) (assigned sched sys).
Proof.
  intros Hlt. pose proof (assigned_closed_form sched sys Hlt) as Heq.
  set (c := nextSegmentID (scorch sys)) in *.
  set (m := length (assigned sched sys)) in *.
  assert (Hget : ∀ i id, assigned sched sys !! i = Some id → id = c + 1 + N.of_nat i).
  { intros i id. rewrite Heq, list_lookup_fmap.
    intros Hi. apply fmap_Some in Hi as (k & Hk & ->).
    apply lookup_seq in Hk as [-> _]. done. }
  split_and!; [done| | |].
  - intros i j idi idj Hi Hj Hij.
    rewrite (Hget _ _ Hi), (Hget _ _ Hj). lia.
  - apply NoDup_alt. intros i j id Hi Hj.
    apply Hget in Hi, Hj. lia.
  - apply Forall_forall. intros id Hin.
    apply list_elem_of_lookup in Hin as [i Hi]. apply Hget in Hi. lia.
Qed.

Lemma next_introduction_iter n s :
  nextSegmentID s < uint64_modulus →
  N.iter n next_introduction s =
    {| nextSegmentID := wrap_uint64 (nextSegmentID s + n); root := root s;
       closeCh := closeCh s; mainLoop := mainLoop s |}.
Proof.
  intros Hlt. induction n as [|n IH] using N.peano_ind.
  - simpl. rewrite N.add_0_r, wrap_uint64_small by done. by destruct s.
  - rewrite N.iter_succ, IH. unfold next_introduction, prepareSegment_new. simpl.
    rewrite wrap_uint64_add_l. do 2 f_equal. lia.
Qed.

(** C8 (counterexample). After [2^64 - 2] introductions the next two
    introductions get the IDs [2^64 - 1] and [0]: the later one is the
    smaller. *)
Lemma segment_id_wraps :
  assigned [ActCall mem_New [] ∅; ActNew 0; ActCall mem_New [] ∅; ActNew 1]
           Fixture.worn
  = [18446744073709551615; 0] ∧
  ¬ (∀ i j idi idj,
       assigned [ActCall mem_New [] ∅; ActNew 0; ActCall mem_New [] ∅; ActNew 1]
                Fixture.worn !! i = Some idi →
       assigned [ActCall mem_New [] ∅; ActNew 0; ActCall mem_New [] ∅; ActNew 1]
                Fixture.worn !! j = Some idj →
       (i < j)%nat → idi < idj).
Proof.
  assert (Heq : assigned [ActCall mem_New [] ∅; ActNew 0; ActCall mem_New [] ∅; ActNew 1]
                  Fixture.worn = [18446744073709551615; 0]).
  { unfold Fixture.worn. rewrite next_introduction_iter by (by vm_compute).
    by vm_compute. }
  split; [done|]. rewrite Heq. intros Hinc.
  specialize (Hinc 0%nat 1%nat _ _ eq_refl eq_refl). lia.
Qed.

(** *** Invariants of the runs *)

Lemma run_invariant (P : System → Prop) :
  (∀ a sys sys', P sys → exec a sys = Some sys' → P sys') →
  ∀ sched sys sys', P sys → run sched sys = Some sys' → P sys'.
Proof.
  intros Hstep. induction sched as [|a sched IH]; intros sys sys' HP Hrun; simpl in Hrun.
  - by simplify_eq.
  - destruct (exec a sys) as [sys1|] eqn:He; [|done]. simpl in Hrun. eauto.
Qed.

Lemma applied_in_introduce r next i :
  applied_in r i → applied_in (introduce r next) i.
Proof.
  intros (entry & Hin & Hid & Hseg).
  exists {| ss_id := ss_id entry; ss_segment := ss_segment entry;
            ss_deleted := ss_deleted entry ∪
                          default ∅ (si_obsoletes next !! ss_id entry) |}.
  split; [|done]. simpl. apply elem_of_app. left.
  apply list_elem_of_fmap. by exists entry.
Qed.

Lemma applied_in_introduce_new r next : applied_in (introduce r next) next.
Proof.
  exists {| ss_id := si_id next; ss_segment := si_data next; ss_deleted := ∅ |}.
  split; [|done]. simpl. apply elem_of_app. right. by left.
Qed.

Lemma pc_ok_introduce r next p : pc_ok r p → pc_ok (introduce r next) p.
Proof.
  destruct p; simpl; [done..| |]; intuition auto using applied_in_introduce.
Qed.

Lemma exec_pc_ok a sys sys' :
  Forall (pc_ok (root (scorch sys))) (threads sys) →
  exec a sys = Some sys' →
  Forall (pc_ok (root (scorch sys'))) (threads sys').
Proof.
  intros Hall He. destruct a; simpl in He.
  - destruct (mainLoop (scorch sys)); by simplify_eq.
  - unfold Close in He. destruct (closeCh (scorch sys)); simpl in He; by simplify_eq.
  - unfold mainLoop_exit in He.
    destruct (mainLoop (scorch sys)), (closeCh (scorch sys)); simpl in He;
      by simplify_eq.
  - simplify_eq. simpl. apply Forall_app. split; [done|]. by constructor.
  - destruct (threads sys !! t) as [[]|]; simplify_eq. simpl.
    by apply Forall_insert.
  - destruct (threads sys !! t) as [[]|]; simplify_eq. simpl.
    by apply Forall_insert.
  - unfold mainLoop_turn in He.
    destruct (threads sys !! t) as [[]|], (mainLoop (scorch sys)); simpl in He;
      simplify_eq.
    simpl. apply Forall_insert; [|apply applied_in_introduce_new].
    eapply Forall_impl; [done|]. intros p. apply pc_ok_introduce.
  - destruct (threads sys !! t) as [[]|] eqn:Ht; simplify_eq. simpl.
    apply Forall_insert; [done|]. split; [done|].
    by apply (Forall_lookup_1 _ _ _ _ Hall Ht).
Qed.

(** After the loop has exited, a goroutine blocked on the send of line
    150 stays there whatever step is taken. *)
Lemma exec_blocked a sys sys' t i :
  mainLoop (scorch sys) = LoopExited →
  threads sys !! t = Some (AtSend i) →
  exec a sys = Some sys' →
  mainLoop (scorch sys') = LoopExited ∧ threads sys' !! t = Some (AtSend i).
Proof.
  intros Hloop Ht He. destruct a as [| | | | t0 | t0 | t0 | t0]; simpl in He.
  - rewrite Hloop in He. done.
  - unfold Close in He. destruct (closeCh (scorch sys)); simpl in He; by simplify_eq.
  - unfold mainLoop_exit in He. rewrite Hloop in He. done.
  - simplify_eq. simpl. split; [done|]. by apply lookup_app_l_Some.
  - destruct (threads sys !! t0) as [[]|] eqn:Ht0; simplify_eq. simpl.
    split; [done|]. rewrite list_lookup_insert_ne; [done|congruence].
  - destruct (threads sys !! t0) as [[]|] eqn:Ht0; simplify_eq. simpl.
    split; [done|]. rewrite list_lookup_insert_ne; [done|congruence].
  - unfold mainLoop_turn in He. rewrite Hloop in He.
    by destruct (threads sys !! t0) as [[]|].
  - destruct (threads sys !! t0) as [[]|] eqn:Ht0; simplify_eq. simpl.
    split; [done|]. rewrite list_lookup_insert_ne; [done|congruence].
Qed.

(** C4 (as amended). Batch has no failure result: a call that returns
    returns nil, and it returns only after its introduction has been
    made part of the root; Close closes the close channel and touches
    neither the callers nor the root, the counter or the loop. *)
Theorem Batch_returns_nil_once_applied (sched : list action) (sys' : System) :
  run sched initial = Some sys' →
  (∀ t introduction err,
     threads sys' !! t = Some (Returned introduction err) →
     err = None ∧ applied_in (root (scorch sys')) introduction) ∧
  (∀ IndexField StoreField TF (fa : Field → Z * TF) nd h batch res,
     Batch IndexField StoreField fa nd sys' h batch = Some res →
     res.1.1 = None) ∧
  (∀ sys'', exec ActClose sys' = Some sys'' →
     threads sys'' = threads sys' ∧
     root (scorch sys'') = root (scorch sys') ∧
     nextSegmentID (scorch sys'') = nextSegmentID (scorch sys') ∧
     mainLoop (scorch sys'') = mainLoop (scorch sys') ∧
     closeCh (scorch sys'') = ChanClosed).
Proof.
  intros Hrun.
  assert (Hall : Forall (pc_ok (root (scorch sys'))) (threads sys')).
  { revert Hrun. apply (run_invariant (λ sys, Forall (pc_ok (root (scorch sys))) (threads sys))).
    - intros a sys1 sys2. apply exec_pc_ok.
    - constructor. }
  split_and!.
  - intros t i err Ht. apply (Forall_lookup_1 _ _ _ _ Hall Ht).
  - intros IndexField StoreField TF fa nd h batch res Hb. unfold Batch in Hb.
    destruct (Batch_analysis _ _ _ _ _ _) as [[[h1 seg] idl]|]; simpl in Hb; [|done].
    destruct (prepareSegment _ _ _ _) as [[err sys'']|]; simpl in Hb; [|done].
    by simplify_eq.
  - intros sys'' He. simpl in He. unfold Close in He.
    destruct (closeCh (scorch sys')); simpl in He; by simplify_eq.
Qed.

(** C4 (counterexample). A goroutine computes its obsoletes, the index is
    closed and the loop exits: the goroutine is blocked on the send and
    stays blocked in every continuation; a Batch submitted after the
    close never returns either.  Neither gets an error. *)
Lemma submitter_blocked_after_Close :
  ∃ sys0 i,
    run Fixture.closing initial = Some sys0 ∧
    threads sys0 !! 0%nat = Some (AtSend i) ∧
    (∀ sched sys', run sched sys0 = Some sys' →
                   threads sys' !! 0%nat = Some (AtSend i)) ∧
    Batch Fixture.IndexField Fixture.StoreField Fixture.fa Fixture.nd
          sys0 Fixture.h (single_tombstone "a") = None.
Proof.
  eexists _, _. split_and!.
  - vm_compute. reflexivity.
  - reflexivity.
  - intros sched sys' Hrun.
    match goal with |- _ = Some (AtSend ?i) =>
      apply (run_invariant (λ sys, mainLoop (scorch sys) = LoopExited ∧
                                   threads sys !! 0%nat = Some (AtSend i)))
        in Hrun; [by destruct Hrun| |done]
    end.
    intros a sys1 sys2 [Hl Ht]. by apply exec_blocked.
  - by vm_compute.
Qed.

(** *** One call of prepareSegment, alone *)

Lemma lookup_snoc {A} (l : list A) x : (l ++ [x]) !! length l = Some x.
Proof. by rewrite lookup_app_r, Nat.sub_diag by lia. Qed.

Lemma insert_snoc {A} (l : list A) x y : <[length l := y]> (l ++ [x]) = l ++ [y].
Proof. by rewrite insert_app_r_alt, Nat.sub_diag by lia. Qed.

Lemma prepareSegment_running sys newSegment ids internalOps :
  mainLoop (scorch sys) = LoopRunning →
  prepareSegment sys newSegment ids internalOps =
    let new := prepareSegment_new (scorch sys) newSegment ids internalOps in
    let introduction := (prepareSegment_obsoletes (root (scorch sys)) new.1).1 in
    Some (None,
          {| scorch := with_root new.2 (introduce (root (scorch sys)) introduction);
             threads := threads sys ++ [Returned introduction None] |}).
Proof.
  intros Hloop. unfold prepareSegment, prepareSegment_steps.
  cbn [run exec mbind option_bind scorch threads].
  rewrite lookup_snoc. cbn [prepareSegment_new scorch threads mbind option_bind].
  rewrite insert_snoc, lookup_snoc. cbn [scorch threads mbind option_bind root mainLoop].
  rewrite insert_snoc, lookup_snoc. unfold mainLoop_turn.
  cbn [mainLoop]. rewrite Hloop. cbn [scorch threads mbind option_bind].
  rewrite insert_snoc, lookup_snoc. cbn [scorch threads mbind option_bind].
  rewrite !insert_snoc, lookup_snoc. unfold prepareSegment_new. simpl.
  by rewrite ?Hloop.
Qed.

(** *** What an introduction does to the live documents *)

Lemma filter_ext_in {A} (P Q : A → Prop) `{!∀ x, Decision (P x)}
    `{!∀ x, Decision (Q x)} (l : list A) :
  (∀ x, x ∈ l → P x ↔ Q x) → filter P l = filter Q l.
Proof.
  induction l as [|x l IH]; intros Hall; [done|].
  rewrite !filter_cons.
  destruct (decide (P x)) as [HP|HP], (decide (Q x)) as [HQ|HQ].
  - f_equal. apply IH. intros y Hy. apply Hall. by right.
  - destruct HQ. apply Hall; [by left|done].
  - destruct HP. apply Hall; [by left|done].
  - apply IH. intros y Hy. apply Hall. by right.
Qed.

Lemma filter_all {A} (P : A → Prop) `{!∀ x, Decision (P x)} (l : list A) :
  (∀ x, x ∈ l → P x) → filter P l = l.
Proof.
  induction l as [|x l IH]; intros Hall; [done|].
  rewrite filter_cons, decide_True by (apply Hall; by left).
  f_equal. apply IH. intros y Hy. apply Hall. by right.
Qed.

(** An entry whose bitmap is extended by the document numbers the
    segment reports for [ids]: the occurrences of an ID of [ids] are no
    longer live, those of other IDs are as before. *)
Lemma live_in_obsoleted entry ids D :
  live_in {| ss_id := ss_id entry; ss_segment := ss_segment entry;
             ss_deleted := ss_deleted entry ∪ DocNumbers (ss_segment entry) ids |} D
  = if bool_decide (D ∈ ids) then [] else live_in entry D.
Proof.
  unfold live_in. simpl. case_bool_decide as HD.
  - rewrite filter_none; [done|]. intros n Hn Hnot. apply Hnot.
    apply elem_of_union. right. apply elem_of_DocNumbers. exists D.
    apply elem_of_occurrences in Hn as [_ Hn]. by rewrite Nat.sub_0_r in Hn.
  - f_equal. apply filter_ext_in. intros n Hn.
    apply elem_of_occurrences in Hn as [_ Hn]. rewrite Nat.sub_0_r in Hn.
    rewrite not_elem_of_union, elem_of_DocNumbers. split; [tauto|].
    intros Hdel. split; [done|]. intros (id & Hid & Hl). congruence.
Qed.

Lemma live_introduce r next D :
  (∀ entry, entry ∈ is_segment r →
     si_obsoletes next !! ss_id entry
     = Some (DocNumbers (ss_segment entry) (si_ids next))) →
  live (introduce r next) D
  = (if bool_decide (D ∈ si_ids next) then [] else live r D)
    ++ ((λ n, (si_id next, n)) <$> occurrences D (seg_docs (si_data next)) 0).
Proof.
  intros Hobs. unfold live, introduce. simpl. rewrite bind_app. f_equal.
  - revert Hobs. generalize (is_segment r). intros segs.
    induction segs as [|entry segs IH]; intros Hobs.
    + by case_bool_decide.
    + rewrite fmap_cons, !bind_cons.
      rewrite Hobs by (by left). simpl. rewrite live_in_obsoleted.
      rewrite IH by (intros e He; apply Hobs; by right).
      by case_bool_decide.
  - rewrite bind_cons. simpl. rewrite app_nil_r. unfold live_in. simpl. f_equal.
    apply filter_all. intros n _. apply not_elem_of_empty.
Qed.

(** *** Calls of prepareSegment one after the other *)

Lemma obsoletes_result r i0 :
  let i := (prepareSegment_obsoletes r i0).1 in
  si_id i = si_id i0 ∧ si_data i = si_data i0 ∧ si_ids i = si_ids i0 ∧
  si_internal i = si_internal i0 ∧
  (NoDup (ss_id <$> is_segment r) →
   ∀ entry, entry ∈ is_segment r →
     si_obsoletes i !! ss_id entry
     = Some (DocNumbers (ss_segment entry) (si_ids i))).
Proof.
  unfold prepareSegment_obsoletes. simpl.
  destruct (visit_fold_fields (is_segment r) (i0, [EvRLock]))
    as (Hid & Hdata & Hids & Hint & _).
  split_and!; try done.
  intros Hnd entry Hin. rewrite visit_fold_obsoletes, Hids. simpl.
  by apply fold_insert_lookup.
Qed.

Lemma introduce_ids r next :
  ss_id <$> is_segment (introduce r next)
  = (ss_id <$> is_segment r) ++ [si_id next].
Proof.
  unfold introduce. simpl. rewrite fmap_app, <- list_fmap_compose. done.
Qed.


(** One call made while no other is in progress, on a root whose
    segment IDs are distinct and at most the counter. *)
Lemma prepareSegment_alone sys c D :
  mainLoop (scorch sys) = LoopRunning →
  NoDup (ss_id <$> is_segment (root (scorch sys))) →
  Forall (λ id, id ≤ nextSegmentID (scorch sys))
         (ss_id <$> is_segment (root (scorch sys))) →
  nextSegmentID (scorch sys) + 1 < uint64_modulus →
  call_ok c →
  ∃ sys',
    prepareSegment sys (c_segment c) (c_ids c) (c_internal c) = Some (None, sys') ∧
    mainLoop (scorch sys') = LoopRunning ∧
    nextSegmentID (scorch sys') = nextSegmentID (scorch sys) + 1 ∧
    NoDup (ss_id <$> is_segment (root (scorch sys'))) ∧
    Forall (λ id, id ≤ nextSegmentID (scorch sys'))
           (ss_id <$> is_segment (root (scorch sys'))) ∧
    live (root (scorch sys')) D
    = if bool_decide (D ∈ c_ids c)
      then (λ n, (nextSegmentID (scorch sys) + 1, n))
             <$> occurrences D (seg_docs (c_segment c)) 0
      else live (root (scorch sys)) D.
Proof.
  intros Hloop Hnd Hle Hlt [Hdocs Hsub].
  rewrite prepareSegment_running by done. cbn zeta.
  set (i0 := (prepareSegment_new (scorch sys) (c_segment c) (c_ids c) (c_internal c)).1).
  destruct (obsoletes_result (root (scorch sys)) i0)
    as (Hid & Hdata & Hids & _ & Hobs).
  set (i := (prepareSegment_obsoletes (root (scorch sys)) i0).1) in *.
  assert (Hnew : si_id i = nextSegmentID (scorch sys) + 1).
  { rewrite Hid. simpl. by apply wrap_uint64_small. }
  eexists. split; [done|].
  cbn [scorch root with_root nextSegmentID mainLoop snd prepareSegment_new].
  rewrite introduce_ids, Hnew, wrap_uint64_small by done.
  split_and!; try done.
  - apply NoDup_app. split_and!; [done| |apply NoDup_singleton].
    intros id Hin Hin'. apply list_elem_of_singleton in Hin'. subst id.
    rewrite Forall_forall in Hle. specialize (Hle _ Hin). lia.
  - apply Forall_app. split.
    + eapply Forall_impl; [done|]. simpl. intros; lia.
    + constructor; [lia|constructor].
  - rewrite live_introduce by (by apply Hobs).
    rewrite Hids, Hdata, Hnew. subst i0. simpl. case_bool_decide as HD; [done|].
    rewrite occurrences_not_in; [by rewrite app_nil_r|].
    intros Hin. apply HD. by apply Hsub.
Qed.


(** *** The segment IDs in use *)

Lemma omap_insert_Permutation {A B} (f : A → option B) (l : list A) t p p' :
  l !! t = Some p →
  option_list (f p) ++ omap f (<[t:=p']> l) ≡ₚ option_list (f p') ++ omap f l.
Proof.
  revert t. induction l as [|x l IH]; intros t Ht; [by rewrite lookup_nil in Ht|].
  destruct t as [|t]; simpl in Ht.
  - injection Ht as ->. cbn.
    destruct (f p) as [y|], (f p') as [y'|]; simpl; try done. apply perm_swap.
  - cbn. specialize (IH t Ht).
    destruct (f x) as [z|]; [|done].
    rewrite <- !Permutation_middle. by apply perm_skip.
Qed.

Lemma exec_ids_in_use a sys sys' :
  exec a sys = Some sys' →
  ids_in_use sys' ≡ₚ
    match a with ActNew _ => [nextSegmentID (scorch sys')] | _ => [] end
    ++ ids_in_use sys.
Proof.
  intros He. unfold ids_in_use. destruct a; cbn [exec] in He.
  - destruct (mainLoop (scorch sys)); by simplify_eq.
  - unfold Close in He. destruct (closeCh (scorch sys)); simpl in He; by simplify_eq.
  - unfold mainLoop_exit in He.
    destruct (mainLoop (scorch sys)), (closeCh (scorch sys)); simpl in He;
      by simplify_eq.
  - simplify_eq. simpl. by rewrite omap_app, app_nil_r.
  - destruct (threads sys !! t) as [[]|] eqn:Ht; simpl in He; simplify_eq. simpl.
    rewrite Permutation_middle. apply Permutation_app_head.
    apply (omap_insert_Permutation pending_id _ _ _
             (AtRLock {| si_id := wrap_uint64 (nextSegmentID (scorch sys) + 1);
                         si_data := newSegment; si_ids := ids0;
                         si_obsoletes := ∅; si_internal := internalOps |}) Ht).
  - destruct (threads sys !! t) as [[]|] eqn:Ht; simplify_eq. cbn [scorch threads app].
    apply Permutation_app_head.
    pose proof (omap_insert_Permutation pending_id _ _ _
      (AtSend (prepareSegment_obsoletes (root (scorch sys)) introduction).1) Ht) as Hp.
    cbn [pending_id] in Hp.
    destruct (obsoletes_result (root (scorch sys)) introduction) as (Hid & _).
    rewrite Hid in Hp. simpl in Hp. by apply Permutation_cons_inv in Hp.
  - destruct (threads sys !! t) as [[| |i| |]|] eqn:Ht; simplify_eq.
    unfold mainLoop_turn in He.
    destruct (mainLoop (scorch sys)); simpl in He; simplify_eq.
    cbn [scorch threads app root with_root]. rewrite introduce_ids, <- app_assoc.
    apply Permutation_app_head.
    apply (omap_insert_Permutation pending_id _ _ _ (AtApplied i) Ht).
  - destruct (threads sys !! t) as [[]|] eqn:Ht; simplify_eq. cbn [scorch threads app].
    apply Permutation_app_head.
    apply (omap_insert_Permutation pending_id _ _ _
             (Returned introduction None) Ht).
Qed.

Lemma run_ids_in_use sched sys sys' :
  run sched sys = Some sys' →
  ids_in_use sys' ≡ₚ assigned sched sys ++ ids_in_use sys.
Proof.
  revert sys. induction sched as [|a sched IH]; intros sys Hrun; simpl in Hrun.
  - by simplify_eq.
  - destruct (exec a sys) as [sys1|] eqn:He; [|done]. simpl in Hrun.
    simpl. rewrite He, (IH _ Hrun), (exec_ids_in_use _ _ _ He).
    rewrite !app_assoc. apply Permutation_app_tail, Permutation_app_comm.
Qed.

(** As long as the counter has not wrapped around, the segments of the
    root have distinct IDs. *)
Lemma root_ids_distinct sched sys' :
  run sched initial = Some sys' →
  N.of_nat (length (assigned sched initial)) < uint64_modulus →
  NoDup (ss_id <$> is_segment (root (scorch sys'))).
Proof.
  intros Hrun Hlt. apply (NoDup_app (ss_id <$> is_segment (root (scorch sys')))
                            (omap pending_id (threads sys'))).
  fold (ids_in_use sys'). rewrite (run_ids_in_use _ _ _ Hrun).
  unfold ids_in_use. simpl. rewrite app_nil_r.
  rewrite assigned_closed_form by (simpl; lia).
  apply NoDup_fmap_2; [|apply NoDup_seq].
  intros i j Hij. lia.
Qed.

(** *** Runs that apply every introduction to the root it was computed for *)












(** *** Batches without upserts *)

Lemma scan_no_upserts (IndexField StoreField : Z) order st :
  Forall (λ e : string * option positive, e.2 = None) order →
  foldl (Batch_scan_entry IndexField StoreField) st order
  = {| sc_heap := sc_heap st; numUpdates := numUpdates st;
       ids := ids st ++ order.*1 |}.
Proof.
  intros Hall. revert st. induction Hall as [|[k v] order Hv _ IH]; intros st; simpl.
  - rewrite app_nil_r. by destruct st.
  - simpl in Hv. subst v. rewrite IH. simpl. by rewrite <- app_assoc.
Qed.

Lemma upserts_none order :
  Forall (λ e : string * option positive, e.2 = None) order → upserts order = [].
Proof.
  induction 1 as [|[k v] order Hv _ IH]; [done|].
  simpl in Hv. subst v. done.
Qed.

Lemma Batch_analysis_no_upserts (IndexField StoreField : Z) {TF : Type}
    (fa : Field → Z * TF) (nd : nondet TF) (h : gmap positive Document)
    (batch : index.Batch) :
  nondet_ok nd →
  (∀ docID doc, index.IndexOps batch !! docID = Some doc → doc = None) →
  Batch_analysis IndexField StoreField fa nd h batch
  = Some (h, mem_New, (range_scan nd (index.IndexOps batch)).*1).
Proof.
  intros (Hscan & Hdisp & Hdel) Hnone.
  assert (Hall : ∀ order, order ≡ₚ map_to_list (index.IndexOps batch) →
            Forall (λ e : string * option positive, e.2 = None) order).
  { intros order Hp. apply Forall_forall. intros [k v] Hin. simpl.
    rewrite Hp in Hin. apply elem_of_map_to_list in Hin. eauto. }
  unfold Batch_analysis, Batch_scan.
  rewrite scan_no_upserts by (by apply Hall). simpl.
  rewrite Batch_dispatch_upserts, upserts_none by (by apply Hall). simpl.
  rewrite (proj1 (Permutation_nil_r _) (Hdel [])). done.
Qed.



(** C10. The single-operation wrappers are Batch on the one-element
    batch: one upsert keyed by the document's ID, one tombstone, one
    internal upsert, one internal delete; the result, the index and the
    heap are those of that Batch. *)
Theorem wrappers_are_single_batches (IndexField StoreField : Z) {TF : Type}
    (fa : Field → Z * TF) (nd : nondet TF) (sys : System)
    (h : gmap positive Document) :
  (∀ doc, Update IndexField StoreField fa nd sys h doc
          = d ← h !! doc;
            Batch IndexField StoreField fa nd sys h (single_upsert (ID d) doc)) ∧
  (∀ id, Delete IndexField StoreField fa nd sys h id
         = Batch IndexField StoreField fa nd sys h (single_tombstone id)) ∧
  (∀ key val, SetInternal IndexField StoreField fa nd sys h key val
              = Batch IndexField StoreField fa nd sys h (single_internal key val)) ∧
  (∀ key, DeleteInternal IndexField StoreField fa nd sys h key
          = Batch IndexField StoreField fa nd sys h (single_internal key None)).
Proof.
  split_and!.
  - intros doc. unfold Update, index.Update, single_upsert.
    destruct (h !! doc) as [d|]; simpl; [|done].
    by rewrite insert_empty.
  - intros id. unfold Delete, index.Delete, single_tombstone. simpl.
    by rewrite insert_empty.
  - intros key val. unfold SetInternal, index.SetInternal, single_internal. simpl.
    by rewrite insert_empty.
  - intros key. unfold DeleteInternal, index.DeleteInternal, single_internal. simpl.
    by rewrite insert_empty.
Qed.

(** C9. [Validate] returns an error exactly when both [Min] and [Max] are
    nil, and returns nil exactly when at least one of them is set. *)
Theorem Validate_error_iff_no_bound (q : Query.NumericRangeQuery) :
  (Query.Validate q <> None <-> Query.Min q = None /\ Query.Max q = None) /\
  (Query.Validate q = None <-> Query.Min q <> None \/ Query.Max q <> None).
Proof.
  unfold Query.Validate.
  destruct (Query.Min q) as [a|] eqn:Hmin, (Query.Max q) as [b|] eqn:Hmax;
    cbn; repeat case_bool_decide; cbn; try congruence; split; split;
    try congruence; intuition congruence.
Qed.

(** *** The theorems at concrete inputs *)

(** C2 (counterexample). On a root with one segment, the [DocNumbers]
    query of [prepareSegment] is the second event of the goroutine, and
    the read lock taken by the first is still held. *)
Lemma DocNumbers_query_holds_lock :
  Fixture.obsoletes_a.2 = [EvRLock; EvDocNumbers 1; EvRUnlock] ∧
  lock_before Fixture.obsoletes_a.2 1 = ReadLocked ∧
  ¬ (∀ k segment, Fixture.obsoletes_a.2 !! k = Some (EvDocNumbers segment) →
                  lock_before Fixture.obsoletes_a.2 k = Unlocked).
Proof.
  split; [by vm_compute|]. split; [by vm_compute|].
  intros Hfree. specialize (Hfree 1%nat 1 eq_refl). vm_compute in Hfree. done.
Qed.

(** The lock discipline on a root with one segment. *)
Lemma DocNumbers_under_read_lock_witness :
  lock_before Fixture.obsoletes_a.2 1 = ReadLocked.
Proof.
  apply (proj1 (proj2 (DocNumbers_under_read_lock Fixture.root_a
           (prepareSegment_new (Open NewScorch) Fixture.segment_a ["a"%string] ∅).1))
         1%nat 1).
  reflexivity.
Defined.



(** The obsoletes of a batch that writes "a", on a root whose one
    segment holds "a". *)
Lemma obsoletes_content_witness :
  si_obsoletes
    (prepareSegment_obsoletes Fixture.root_a
       (prepareSegment_new (Open NewScorch) Fixture.segment_a ["a"%string]
          (index.InternalOps (single_upsert "a" 1))).1).1 !! 1
  = Some (DocNumbers Fixture.segment_a ["a"%string]).
Proof.
  destruct (obsoletes_content Fixture.IndexField Fixture.StoreField Fixture.fa
              Fixture.nd Fixture.h
              (sc_heap (Batch_scan Fixture.IndexField Fixture.StoreField Fixture.h
                          (map_to_list (index.IndexOps (single_upsert "a" 1)))))
              (single_upsert "a" 1) (Open NewScorch)
              Fixture.root_a Fixture.segment_a ["a"%string])
    as (_ & _ & _ & _ & _ & Hentry).
  - split_and!; intros; reflexivity.
  - vm_compute. reflexivity.
  - simpl. apply NoDup_singleton.
  - apply (Hentry {| ss_id := 1; ss_segment := Fixture.segment_a; ss_deleted := ∅ |}).
    simpl. apply list_elem_of_here.
Defined.

(** One call of [prepareSegment] run to its return. *)
Lemma Batch_returns_nil_once_applied_witness :
  ∃ sys', run (ActCall Fixture.segment_a ["a"%string] ∅ :: prepareSegment_steps 0)
              initial = Some sys' ∧
          ∀ t introduction err,
            threads sys' !! t = Some (Returned introduction err) →
            err = None ∧ applied_in (root (scorch sys')) introduction.
Proof.
  destruct (run (ActCall Fixture.segment_a ["a"%string] ∅ :: prepareSegment_steps 0)
                initial) as [sys'|] eqn:Hrun; [|by vm_compute in Hrun].
  exists sys'. split; [reflexivity|].
  apply (Batch_returns_nil_once_applied _ _ Hrun).
Defined.

(** The identity field of document 1, upserted under "a", with the
    option bits 1 and 2. *)
Lemma identity_field_injected_witness :
  IsIndexed Fixture.IndexField
    (f_options (id_field Fixture.IndexField Fixture.StoreField (Fixture.doc "a")))
  = true ∧
  1%positive ∈ Batch_dispatch
                 (range_dispatch Fixture.nd (index.IndexOps (single_upsert "a" 1))).
Proof.
  destruct (identity_field_injected Fixture.IndexField Fixture.StoreField
              Fixture.fa Fixture.nd Fixture.h (single_upsert "a" 1) "a" 1
              (Fixture.doc "a"))
    as (_ & _ & _ & Hix & _ & _ & Hq & _).
  - split_and!; intros; reflexivity.
  - reflexivity.
  - reflexivity.
  - split; [apply Hix; discriminate|exact Hq].
Defined.

(** The batch with the one upsert of document 1: one result is awaited
    and the segment has one document. *)
Lemma Batch_waits_for_every_upsert_witness :
  ∃ newSegment,
    Batch_analysis Fixture.IndexField Fixture.StoreField Fixture.fa Fixture.nd
      Fixture.h (single_upsert "a" 1)
    = Some (sc_heap (Batch_scan Fixture.IndexField Fixture.StoreField Fixture.h
                       (range_scan Fixture.nd (index.IndexOps (single_upsert "a" 1)))),
            newSegment,
            ids (Batch_scan Fixture.IndexField Fixture.StoreField Fixture.h
                   (range_scan Fixture.nd (index.IndexOps (single_upsert "a" 1))))) ∧
    length (seg_docs newSegment) = 1%nat.
Proof.
  destruct (Batch_waits_for_every_upsert Fixture.IndexField Fixture.StoreField
              Fixture.fa Fixture.nd Fixture.h (single_upsert "a" 1))
    as (_ & _ & _ & _ & _ & Hseg).
  - split_and!; intros; reflexivity.
  - reflexivity.
  - intros docID doc Hop. simpl in Hop.
    apply lookup_singleton_Some in Hop as [_ Hdoc].
    injection Hdoc as <-. eexists. reflexivity.
  - exact Hseg.
Defined.


(** The IDs handed out to two racing goroutines. *)
Lemma segment_ids_increase_witness : NoDup (assigned Fixture.racing initial).
Proof.
  apply (segment_ids_increase Fixture.racing initial).
  reflexivity.
Defined.

(** ** Further properties of the code *)

(** *** Analyze (lines 187-210) *)

Section AnalyzeFacts.

Context (IndexField : Z) {TF : Type} (fa : Field → Z * TF).

Lemma Analyze_fields_spec i fields (rv : AnalysisResult TF) :
  (i + length fields ≤ length (Analyzed rv))%nat →
  (i + length fields ≤ length (Length rv))%nat →
  let rv' := Analyze_fields IndexField fa i fields rv in
  length (Analyzed rv') = length (Analyzed rv) ∧
  length (Length rv') = length (Length rv) ∧
  (∀ j, (j < i ∨ i + length fields ≤ j)%nat →
        Analyzed rv' !! j = Analyzed rv !! j ∧ Length rv' !! j = Length rv !! j) ∧
  (∀ k f, fields !! k = Some f →
     Analyzed rv' !! (i + k)%nat
     = (if IsIndexed IndexField (f_options f) then Some (Some (fa f).2)
        else Analyzed rv !! (i + k)%nat) ∧
     Length rv' !! (i + k)%nat
     = (if IsIndexed IndexField (f_options f) then Some (fa f).1
        else Length rv !! (i + k)%nat)).
Proof.
  revert i rv. induction fields as [|g fields IH]; intros i rv HA HL; simpl in *.
  - by split_and!.
  - set (rv1 := if IsIndexed IndexField (f_options g)
                then let '(fieldLength, tokenFreqs) := fa g in
                     {| ar_Document := ar_Document rv;
                        Analyzed := <[i:=Some tokenFreqs]> (Analyzed rv);
                        Length := <[i:=fieldLength]> (Length rv) |}
                else rv).
    assert (HA1 : length (Analyzed rv1) = length (Analyzed rv)).
    { subst rv1. destruct (IsIndexed _ _); [|done]. destruct (fa g). simpl.
      by rewrite length_insert. }
    assert (HL1 : length (Length rv1) = length (Length rv)).
    { subst rv1. destruct (IsIndexed _ _); [|done]. destruct (fa g). simpl.
      by rewrite length_insert. }
    assert (Hother : ∀ j, j ≠ i → Analyzed rv1 !! j = Analyzed rv !! j ∧
                                   Length rv1 !! j = Length rv !! j).
    { intros j Hj. subst rv1. destruct (IsIndexed _ _); [|done]. destruct (fa g).
      simpl. by rewrite !list_lookup_insert_ne by done. }
    destruct (IH (S i) rv1) as (HA' & HL' & Hout & Hin); [lia..|].
    split_and!; [congruence|congruence| |].
    + intros j Hj. destruct (Hout j) as [-> ->]; [lia|]. apply Hother. lia.
    + intros [|k] f Hk; simpl in Hk.
      * injection Hk as ->. rewrite Nat.add_0_r.
        destruct (Hout i) as [-> ->]; [lia|]. subst rv1.
        destruct (IsIndexed _ _); [|done]. destruct (fa f) as [len tf]. simpl.
        by rewrite !list_lookup_insert_eq by lia.
      * replace (i + S k)%nat with (S i + k)%nat by lia.
        destruct (Hin k f Hk) as [-> ->].
        destruct (IsIndexed IndexField (f_options f)); [done|]. apply Hother. lia.
Qed.

End AnalyzeFacts.

(** X1. [Analyze] returns a result for the document it was given, whose
    two arrays have one slot per field and per composite field; the slot
    of an indexed field holds what the field's analysis returned, the
    slot of a field that is not indexed and the slots of the composite
    fields are left nil and zero. *)
Theorem Analyze_result (IndexField : Z) {TF : Type} (fa : Field → Z * TF)
    (p : positive) (d : Document) :
  let rv := Analyze IndexField fa p d in
  let n := (length (Fields d) + length (CompositeFields d))%nat in
  ar_Document rv = p ∧
  length (Analyzed rv) = n ∧ length (Length rv) = n ∧
  (∀ k f, Fields d !! k = Some f →
     Analyzed rv !! k
     = Some (if IsIndexed IndexField (f_options f) then Some (fa f).2 else None) ∧
     Length rv !! k
     = Some (if IsIndexed IndexField (f_options f) then (fa f).1 else 0%Z)) ∧
  (∀ k, (length (Fields d) ≤ k < n)%nat →
     Analyzed rv !! k = Some None ∧ Length rv !! k = Some 0%Z).
Proof.
  intros rv n. subst rv. unfold Analyze. fold n.
  destruct (Analyze_fields_spec IndexField fa 0 (Fields d)
              {| ar_Document := p; Analyzed := replicate n None;
                 Length := replicate n 0%Z |})
    as (HA & HL & Hout & Hin);
    [simpl; rewrite length_replicate; lia..|].
  simpl in HA, HL, Hout, Hin. rewrite length_replicate in HA. rewrite length_replicate in HL.
  split_and!; [apply Analyze_fields_Document|done|done| |].
  - intros k f Hk. destruct (Hin k f Hk) as [-> ->].
    assert (k < n)%nat by (apply lookup_lt_Some in Hk; lia).
    rewrite !lookup_replicate_2 by done.
    by destruct (IsIndexed _ _).
  - intros k Hk. destruct (Hout k) as [-> ->]; [lia|].
    by rewrite !lookup_replicate_2 by lia.
Qed.

(** *** The scan of Batch (lines 79-90) *)

Lemma NoDup_all_equal {A} (l : list A) (a : A) :
  NoDup l → (∀ x, x ∈ l → x = a) → (length l ≤ 1)%nat.
Proof.
  intros Hnd Hall. destruct l as [|x [|y l]]; simpl; [lia..|].
  apply NoDup_cons in Hnd as [Hx _]. destruct Hx.
  rewrite (Hall x) by (by left). rewrite (Hall y) by (right; by left). by left.
Qed.

Lemma scan_heap_lookup (IndexField StoreField : Z) {TF : Type}
    (nd : nondet TF) (h : gmap positive Document) (batch : index.Batch) q :
  nondet_ok nd →
  sc_heap (Batch_scan IndexField StoreField h
             (range_scan nd (index.IndexOps batch))) !! q
  = with_ids IndexField StoreField
      (length (filter (λ e : string * option positive, e.2 = Some q)
                      (map_to_list (index.IndexOps batch)))) <$> h !! q.
Proof.
  intros (Hscan & _ & _). unfold Batch_scan. rewrite scan_fold_heap. simpl.
  by rewrite (Hscan (index.IndexOps batch)).
Qed.

(** X2. The scan of [Batch] appends the identity field to a document once
    for every key of [IndexOps] that points to it, whatever the order in
    which the map is enumerated: the document keeps its ID, its earlier
    fields and its composite fields, no document is added to or removed
    from the heap, and in a batch whose upserts are keyed by the ID of
    their document a document gets the field at most once. *)
Theorem identity_fields_counted (IndexField StoreField : Z) {TF : Type}
    (nd : nondet TF) (h : gmap positive Document) (batch : index.Batch)
    (p : positive) :
  nondet_ok nd →
  let st := Batch_scan IndexField StoreField h
              (range_scan nd (index.IndexOps batch)) in
  let k := length (filter (λ e : string * option positive, e.2 = Some p)
                          (map_to_list (index.IndexOps batch))) in
  sc_heap st !! p = with_ids IndexField StoreField k <$> h !! p ∧
  dom (sc_heap st) = dom h ∧
  ((∀ docID doc d, index.IndexOps batch !! docID = Some (Some doc) →
                   h !! doc = Some d → ID d = docID) →
   is_Some (h !! p) → (k ≤ 1)%nat).
Proof.
  intros Hnd st k.
  assert (Hall : ∀ q, sc_heap st !! q
            = with_ids IndexField StoreField
                (length (filter (λ e : string * option positive, e.2 = Some q)
                                (map_to_list (index.IndexOps batch)))) <$> h !! q)
    by (intros q; by apply scan_heap_lookup).
  split_and!; [apply Hall| |].
  - apply set_eq. intros q. rewrite !elem_of_dom, Hall.
    by rewrite fmap_is_Some.
  - intros Hkeyed [d Hd]. subst k.
    apply (NoDup_all_equal _ (ID d, Some p)).
    + apply NoDup_filter, NoDup_map_to_list.
    + intros [docID v] Hin. apply list_elem_of_filter in Hin as [Hv Hin].
      simpl in Hv. subst v. apply elem_of_map_to_list in Hin.
      by rewrite (Hkeyed _ _ _ Hin Hd).
Qed.

(** X3. What the scan of [Batch] computes does not depend on the order in
    which Go enumerates the map, except for the order of the IDs: the
    heap and [numUpdates] are the same, the lists of IDs are
    permutations of one another, hold every key once, and the queues of
    analysis work are permutations of one another. *)
Theorem scan_order_irrelevant (IndexField StoreField : Z) {TF : Type}
    (nd1 nd2 : nondet TF) (h : gmap positive Document) (batch : index.Batch) :
  nondet_ok nd1 → nondet_ok nd2 →
  let st1 := Batch_scan IndexField StoreField h
               (range_scan nd1 (index.IndexOps batch)) in
  let st2 := Batch_scan IndexField StoreField h
               (range_scan nd2 (index.IndexOps batch)) in
  sc_heap st1 = sc_heap st2 ∧
  numUpdates st1 = numUpdates st2 ∧
  ids st1 ≡ₚ ids st2 ∧
  NoDup (ids st1) ∧
  length (ids st1) = size (index.IndexOps batch) ∧
  (∀ id, id ∈ ids st1 ↔ is_Some (index.IndexOps batch !! id)) ∧
  Batch_dispatch (range_dispatch nd1 (index.IndexOps batch))
    ≡ₚ Batch_dispatch (range_dispatch nd2 (index.IndexOps batch)).
Proof.
  intros Hnd1 Hnd2 st1 st2.
  pose proof Hnd1 as (Hs1 & Hd1 & _). pose proof Hnd2 as (Hs2 & Hd2 & _).
  assert (Hids : ∀ (nd : nondet TF), nondet_ok nd →
            ids (Batch_scan IndexField StoreField h
                   (range_scan nd (index.IndexOps batch)))
            ≡ₚ (map_to_list (index.IndexOps batch)).*1).
  { intros nd (Hs & _ & _). unfold Batch_scan. rewrite scan_fold_ids. simpl.
    by rewrite Hs. }
  subst st1 st2. split_and!.
  - apply map_eq. intros q. by rewrite !scan_heap_lookup.
  - unfold Batch_scan. rewrite !scan_fold_numUpdates by done.
    simpl. by rewrite (upserts_Permutation _ _ (Hs1 _)),
                      (upserts_Permutation _ _ (Hs2 _)).
  - by rewrite !Hids.
  - rewrite Hids by done. apply NoDup_fst_map_to_list.
  - rewrite Hids by done. by rewrite length_fmap, length_map_to_list.
  - intros id. rewrite Hids by done. rewrite list_elem_of_fmap. split.
    + intros ([k v] & -> & Hin). apply elem_of_map_to_list in Hin. eauto.
    + intros [v Hv]. exists (id, v). split; [done|]. by apply elem_of_map_to_list.
  - rewrite !Batch_dispatch_upserts.
    by rewrite (upserts_Permutation _ _ (Hd1 _)), (upserts_Permutation _ _ (Hd2 _)).
Qed.

(** *** The obsoletes map on any root (lines 143-148) *)

Lemma size_list_to_set_le (l : list N) :
  (size (list_to_set (C := gset N) l) ≤ length l)%nat.
Proof.
  induction l as [|x l IH]; simpl; [done|].
  rewrite size_union_alt, size_singleton.
  pose proof (subseteq_size (list_to_set (C := gset N) l ∖ {[x]}) (list_to_set l)
                ltac:(set_solver)).
  lia.
Qed.

(** X4. Whatever the root, the obsoletes map of a new introduction has
    the segment IDs of the root as its keys, so at most one entry per
    segment; when several segments share an ID the entry is the answer
    of the last of them, and on a root without segments the map is
    empty. *)
Theorem obsoletes_last_entry_wins (s : Scorch) (r : IndexSnapshot)
    (newSegment : Segment) (idl : list string)
    (internalOps : gmap string (option (list Byte.byte))) :
  let i := (prepareSegment_obsoletes r
              (prepareSegment_new s newSegment idl internalOps).1).1 in
  dom (si_obsoletes i) = list_to_set (ss_id <$> is_segment r) ∧
  (size (si_obsoletes i) ≤ length (is_segment r))%nat ∧
  (∀ l1 entry l2, is_segment r = l1 ++ entry :: l2 →
                  ss_id entry ∉ ss_id <$> l2 →
                  si_obsoletes i !! ss_id entry
                  = Some (DocNumbers (ss_segment entry) idl)) ∧
  (is_segment r = [] → si_obsoletes i = ∅).
Proof.
  intros i. subst i. unfold prepareSegment_obsoletes. cbn [fst].
  rewrite visit_fold_obsoletes. cbn [fst prepareSegment_new si_obsoletes si_ids].
  assert (Hdom : dom (foldl (λ m entry,
                   <[ss_id entry := DocNumbers (ss_segment entry) idl]> m)
                   (∅ : gmap N (gset nat)) (is_segment r))
                 = list_to_set (ss_id <$> is_segment r)).
  { rewrite fold_insert_dom. by rewrite dom_empty_L, union_empty_l_L. }
  split_and!; [done| | |].
  - rewrite <- size_dom, Hdom. etrans; [apply size_list_to_set_le|].
    by rewrite length_fmap.
  - intros l1 entry l2 -> Hlast. rewrite foldl_app. simpl.
    rewrite fold_insert_lookup_ne by done. by rewrite lookup_insert_eq.
  - by intros ->.
Qed.

(** *** Open and Close (lines 48-58) *)

(** X5. [Close] closes the channel [Open] made: on an index that was
    never opened it panics (the channel is nil), on an opened index it
    returns nil and leaves the counter and the root alone, and a second
    [Close] panics (the channel is closed already) unless the index was
    opened again. *)
Theorem Close_once_per_Open (s : Scorch) :
  Close NewScorch = None ∧
  ∃ s', Close (Open s) = Some (None, s') ∧
        nextSegmentID s' = nextSegmentID s ∧ root s' = root s ∧
        Close s' = None ∧
        is_Some (Close (Open s')).
Proof.
  split; [done|]. eexists. split; [done|]. simpl.
  split_and!; first [done | by eexists].
Qed.

(** *** prepareSegment without a running loop (lines 133-150) *)

(** X6. On an index whose loop is not running (never opened, or exited)
    a call of [prepareSegment] takes the next segment ID and computes
    its obsoletes, then blocks on the send with the root untouched: it
    never returns, and neither does [Batch]. *)
Theorem prepareSegment_needs_running_loop (sys : System) (newSegment : Segment)
    (idl : list string) (internalOps : gmap string (option (list Byte.byte))) :
  mainLoop (scorch sys) ≠ LoopRunning →
  let t := length (threads sys) in
  let id := wrap_uint64 (nextSegmentID (scorch sys) + 1) in
  prepareSegment sys newSegment idl internalOps = None ∧
  (∀ IndexField StoreField TF (fa : Field → Z * TF) nd h batch,
     Batch IndexField StoreField fa nd sys h batch = None) ∧
  ∃ sys1 i,
    run [ActCall newSegment idl internalOps; ActNew t; ActObsoletes t] sys
    = Some sys1 ∧
    threads sys1 !! t = Some (AtSend i) ∧
    si_id i = id ∧ nextSegmentID (scorch sys1) = id ∧
    root (scorch sys1) = root (scorch sys) ∧
    exec (ActIntroduce t) sys1 = None.
Proof.
  intros Hloop t id. subst t id.
  assert (Hturn : ∀ s next, mainLoop s = mainLoop (scorch sys) →
                            mainLoop_turn s next = None).
  { intros s' next Hs. unfold mainLoop_turn. rewrite Hs.
    by destruct (mainLoop (scorch sys)). }
  assert (Hblock : ∀ seg ids0 int, prepareSegment sys seg ids0 int = None).
  { intros seg ids0 int. unfold prepareSegment, prepareSegment_steps.
    cbn [run exec mbind option_bind scorch threads].
    rewrite lookup_snoc. cbn [prepareSegment_new scorch threads mbind option_bind].
    rewrite insert_snoc, lookup_snoc.
    cbn [scorch threads mbind option_bind root mainLoop].
    rewrite insert_snoc, lookup_snoc. by rewrite Hturn. }
  split_and!; [apply Hblock| |].
  - intros IndexField StoreField TF fa nd h batch. unfold Batch.
    destruct (Batch_analysis _ _ _ _ _ _) as [[[h1 seg] ids0]|]; [|done].
    simpl. by rewrite Hblock.
  - eexists _, _. split_and!.
    + cbn [run exec mbind option_bind scorch threads].
      rewrite lookup_snoc. cbn [prepareSegment_new scorch threads mbind option_bind].
      rewrite insert_snoc, lookup_snoc.
      cbn [scorch threads mbind option_bind root]. rewrite insert_snoc. done.
    + cbn [threads]. apply lookup_snoc.
    + exact (proj1 (obsoletes_result (root (scorch sys))
               (prepareSegment_new (scorch sys) newSegment idl internalOps).1)).
    + done.
    + done.
    + cbn [exec scorch threads]. rewrite lookup_snoc. by rewrite Hturn.
Qed.

(** *** The segment IDs of a running index *)

Lemma run_counter sched sys sys' :
  run sched sys = Some sys' →
  nextSegmentID (scorch sys) < uint64_modulus →
  nextSegmentID (scorch sys')
  = wrap_uint64 (nextSegmentID (scorch sys)
                 + N.of_nat (length (assigned sched sys))).
Proof.
  revert sys. induction sched as [|a sched IH]; intros sys Hrun Hlt; simpl in *.
  - simplify_eq. by rewrite N.add_0_r, wrap_uint64_small.
  - destruct (exec a sys) as [sys1|] eqn:He; [|done]. simpl in Hrun.
    pose proof (exec_counter _ _ _ He) as Hc.
    destruct a; simpl in *;
      try (rewrite (IH _ Hrun) by (by rewrite Hc); by rewrite Hc).
    rewrite (IH _ Hrun) by (rewrite Hc; apply wrap_uint64_lt).
    rewrite Hc, wrap_uint64_add_l. f_equal. lia.
Qed.

(** X7. However the goroutines interleave, as long as fewer than [2^64]
    segment IDs have been handed out, the IDs of the segments of the
    root and of the introductions on their way are pairwise distinct;
    they are the IDs handed out so far, none is zero and none exceeds
    the counter. *)
Theorem segment_ids_in_use_distinct (sched : list action) (sys' : System) :
  run sched initial = Some sys' →
  N.of_nat (length (assigned sched initial)) < uint64_modulus →
  ids_in_use sys' ≡ₚ assigned sched initial ∧
  NoDup (ids_in_use sys') ∧
  NoDup (ss_id <$> is_segment (root (scorch sys'))) ∧
  nextSegmentID (scorch sys') = N.of_nat (length (assigned sched initial)) ∧
  Forall (λ id, 1 ≤ id ≤ nextSegmentID (scorch sys')) (ids_in_use sys').
Proof.
  intros Hrun Hlt.
  assert (Hperm : ids_in_use sys' ≡ₚ assigned sched initial).
  { rewrite (run_ids_in_use _ _ _ Hrun). unfold ids_in_use. simpl.
    by rewrite app_nil_r. }
  assert (Hform := assigned_closed_form sched initial ltac:(simpl; lia)).
  simpl in Hform.
  assert (Hnd : NoDup (assigned sched initial)).
  { rewrite Hform. apply NoDup_fmap_2; [|apply NoDup_seq]. intros i j Hij. lia. }
  assert (Hc : nextSegmentID (scorch sys')
               = N.of_nat (length (assigned sched initial))).
  { rewrite (run_counter _ _ _ Hrun) by done. simpl.
    by apply wrap_uint64_small. }
  split_and!; [done|by rewrite Hperm| |done|].
  - apply (NoDup_app (ss_id <$> is_segment (root (scorch sys')))
                     (omap pending_id (threads sys'))).
    fold (ids_in_use sys'). by rewrite Hperm.
  - rewrite Hperm, Hc. revert Hform.
    generalize (length (assigned sched initial)). intros m ->.
    apply Forall_fmap, Forall_forall.
    intros i Hi. apply elem_of_seq in Hi. simpl. lia.
Qed.

(** *** Readers (lines 172-178) *)

Lemma exec_Returned a sys sys' t i err :
  threads sys !! t = Some (Returned i err) → exec a sys = Some sys' →
  threads sys' !! t = Some (Returned i err).
Proof.
  intros Ht He. destruct a as [| | | | t0 | t0 | t0 | t0]; cbn [exec] in He.
  - destruct (mainLoop (scorch sys)); by simplify_eq.
  - unfold Close in He. destruct (closeCh (scorch sys)); simpl in He; by simplify_eq.
  - destruct (mainLoop_exit (scorch sys)); simpl in He; by simplify_eq.
  - simplify_eq. simpl. by apply lookup_app_l_Some.
  - destruct (threads sys !! t0) as [[]|] eqn:Ht0; simpl in He; simplify_eq. simpl.
    rewrite list_lookup_insert_ne; [done|congruence].
  - destruct (threads sys !! t0) as [[]|] eqn:Ht0; simplify_eq. cbn [threads].
    rewrite list_lookup_insert_ne; [done|congruence].
  - destruct (threads sys !! t0) as [[]|] eqn:Ht0; simplify_eq.
    destruct (mainLoop_turn _ _); simpl in He; simplify_eq. simpl.
    rewrite list_lookup_insert_ne; [done|congruence].
  - destruct (threads sys !! t0) as [[]|] eqn:Ht0; simplify_eq. simpl.
    rewrite list_lookup_insert_ne; [done|congruence].
Qed.

(** X8. Once a call of [prepareSegment] has returned, every reader made
    from then on, whatever happens in between, gets no error and a
    snapshot that holds the segment of that call under the ID the call
    was given. *)
Theorem Reader_sees_returned_batches (sched sched' : list action)
    (sys sys' : System) (t : nat) (i : segmentIntroduction) (err : error) :
  run sched initial = Some sys →
  threads sys !! t = Some (Returned i err) →
  run sched' sys = Some sys' →
  (Reader (scorch sys')).2 = None ∧
  applied_in (reader_root (Reader (scorch sys')).1) i.
Proof.
  intros Hrun Ht Hrun'. split; [done|]. simpl.
  assert (Hinv : Forall (pc_ok (root (scorch sys'))) (threads sys') ∧
                 threads sys' !! t = Some (Returned i err)).
  { revert Hrun'.
    apply (run_invariant (λ s, Forall (pc_ok (root (scorch s))) (threads s) ∧
                               threads s !! t = Some (Returned i err))).
    - intros a s1 s2 [Hall Hr] He. split; [by eapply exec_pc_ok|].
      by eapply exec_Returned.
    - split; [|done]. revert Hrun.
      apply (run_invariant (λ s, Forall (pc_ok (root (scorch s))) (threads s))).
      + intros a s1 s2. apply exec_pc_ok.
      + constructor. }
  destruct Hinv as [Hall Hr].
  by destruct (Forall_lookup_1 _ _ _ _ Hall Hr).
Qed.

(** *** What Batch does to the live documents *)

Lemma occurrences_elem D docs k : D ∈ docs → occurrences D docs k ≠ [].
Proof.
  revert k. induction docs as [|d docs IH]; intros k Hin; [by apply elem_of_nil in Hin|].
  simpl. case_bool_decide as Hd; [done|].
  apply elem_of_cons in Hin as [->|Hin]; [done|]. simpl. by apply IH.
Qed.

(** X9. [Batch] on a running index whose segments have distinct IDs, for
    a batch whose upserts are keyed by the ID of their document (no
    other goroutine in between): it returns nil; afterwards an ID the
    batch upserts has exactly one live document number, in the new
    segment, an ID the batch deletes has none, and the live document
    numbers of every other ID are as before. *)
Theorem Batch_effect_on_live (IndexField StoreField : Z) {TF : Type}
    (fa : Field → Z * TF) (nd : nondet TF) (sys : System)
    (h : gmap positive Document) (batch : index.Batch) (D : string) :
  nondet_ok nd →
  N.of_nat (size (index.IndexOps batch)) < uint64_modulus →
  (∀ docID doc, index.IndexOps batch !! docID = Some (Some doc) →
                ∃ d, h !! doc = Some d ∧ ID d = docID) →
  mainLoop (scorch sys) = LoopRunning →
  NoDup (ss_id <$> is_segment (root (scorch sys))) →
  ∃ sys' h',
    Batch IndexField StoreField fa nd sys h batch = Some (None, sys', h') ∧
    match index.IndexOps batch !! D with
    | Some (Some _) =>
        ∃ n, live (root (scorch sys')) D
             = [(wrap_uint64 (nextSegmentID (scorch sys) + 1), n)]
    | Some None => live (root (scorch sys')) D = []
    | None => live (root (scorch sys')) D = live (root (scorch sys)) D
    end.
Proof.
  intros Hnd Hsize Hkeyed Hloop Hdup.
  destruct (Batch_segment_docs IndexField StoreField fa nd h batch
              Hnd Hsize Hkeyed) as (docs & Hb & Hdocs & Hids).
  set (st := Batch_scan IndexField StoreField h
               (range_scan nd (index.IndexOps batch))) in *.
  unfold Batch. rewrite Hb. cbn [mbind option_bind].
  rewrite prepareSegment_running by done. cbn zeta. cbn [mbind option_bind].
  set (i0 := (prepareSegment_new (scorch sys) {| seg_docs := docs |} (ids st)
                (index.InternalOps batch)).1).
  destruct (obsoletes_result (root (scorch sys)) i0)
    as (Hid & Hdata & Hidl & _ & Hobs).
  set (i := (prepareSegment_obsoletes (root (scorch sys)) i0).1) in *.
  eexists _, _. split; [done|]. cbn [scorch root with_root].
  rewrite live_introduce by (by apply Hobs).
  rewrite Hidl, Hdata, Hid. subst i0. cbn [prepareSegment_new fst si_id si_ids
                                          si_data seg_docs].
  assert (Hin_ids : D ∈ ids st ↔ is_Some (index.IndexOps batch !! D)).
  { rewrite Hids, list_elem_of_fmap. split.
    - intros ([k v] & -> & Hk). apply elem_of_map_to_list in Hk. eauto.
    - intros [v Hv]. exists (D, v). split; [done|]. by apply elem_of_map_to_list. }
  assert (Hin_docs : D ∈ docs ↔ ∃ p, index.IndexOps batch !! D = Some (Some p)).
  { rewrite Hdocs, list_elem_of_fmap. split.
    - intros ([k v] & -> & Hk). apply list_elem_of_filter in Hk as [[p Hp] Hk].
      simpl in Hp. subst v. apply elem_of_map_to_list in Hk. eauto.
    - intros [p Hp]. exists (D, Some p). split; [done|].
      apply list_elem_of_filter. split; [simpl; eauto|].
      by apply elem_of_map_to_list. }
  assert (Hnd_docs : NoDup docs).
  { rewrite Hdocs.
    apply (sublist_NoDup _ (map_to_list (index.IndexOps batch)).*1).
    - apply NoDup_fst_map_to_list.
    - apply fmap_sublist, sublist_filter. }
  destruct (index.IndexOps batch !! D) as [[p|]|] eqn:HD.
  - rewrite bool_decide_eq_true_2 by (apply Hin_ids; eauto). simpl.
    pose proof (occurrences_NoDup D docs 0 Hnd_docs) as Hle.
    pose proof (occurrences_elem D docs 0 ltac:(apply Hin_docs; eauto)) as Hne.
    destruct (occurrences D docs 0) as [|n [|n' l]]; [done| |simpl in Hle; lia].
    by exists n.
  - rewrite bool_decide_eq_true_2 by (apply Hin_ids; eauto). simpl.
    rewrite occurrences_not_in; [done|].
    intros Hin. apply Hin_docs in Hin as [p Hp]. congruence.
  - rewrite bool_decide_eq_false_2
      by (intros Hin; apply Hin_ids in Hin as [v Hv]; congruence).
    rewrite occurrences_not_in; [by rewrite app_nil_r|].
    intros Hin. apply Hin_docs in Hin as [p Hp]. congruence.
Qed.

(** *** Numeric range queries (numeric_range.go) *)

(** X10. The constructors build a query from any endpoints, both nil
    included, and it is [Validate] that rejects the query, looking at
    the two endpoints only: the inclusive flags and the field play no
    part, and a query built with at least one endpoint is valid. *)
Theorem Validate_reads_only_the_bounds (q : Query.NumericRangeQuery)
    (f : string) (min max minInclusive maxInclusive : Query.ptr) :
  Query.Validate q
  = Query.Validate (Query.NewNumericRangeQuery (Query.Min q) (Query.Max q)) ∧
  Query.Validate (Query.SetField q f) = Query.Validate q ∧
  (Query.Validate
     (Query.NewNumericRangeInclusiveQuery min max minInclusive maxInclusive)
   = None ↔ min ≠ None ∨ max ≠ None) ∧
  Query.Validate (Query.NewNumericRangeQuery None None) ≠ None.
Proof.
  split_and!; try done.
  unfold Query.Validate, Query.NewNumericRangeInclusiveQuery. simpl.
  destruct min as [a|], max as [b|]; cbn; repeat case_bool_decide; cbn;
    split; try done; try (intros [?|?]; congruence); intros _; eauto.
Qed.

(** X11. [Searcher] searches the field of the query, and the default
    search field of the mapping when the query has none: a query whose
    field is empty gets the searcher of the same query with the field
    set to the default, and a query with a field gets the searcher built
    from its own endpoints, flags, field and boost, whether or not the
    query is valid. *)
Theorem Searcher_default_field (IndexReader float64 searcher : Type)
    (DefaultSearchField : string) (Boost_Value : Query.ptr → float64)
    (NewNumericRangeSearcher :
       IndexReader → Query.ptr → Query.ptr → Query.ptr → Query.ptr →
       string → float64 → bool → searcher * Query.error)
    (q : Query.NumericRangeQuery) (i : IndexReader) (explain : bool) :
  Query.Searcher IndexReader float64 searcher DefaultSearchField Boost_Value
    NewNumericRangeSearcher (Query.SetField q EmptyString) i explain
  = Query.Searcher IndexReader float64 searcher DefaultSearchField Boost_Value
      NewNumericRangeSearcher (Query.SetField q DefaultSearchField) i explain ∧
  (∀ f, f ≠ EmptyString →
     Query.Searcher IndexReader float64 searcher DefaultSearchField Boost_Value
       NewNumericRangeSearcher (Query.SetField q f) i explain
     = NewNumericRangeSearcher i (Query.Min q) (Query.Max q)
         (Query.InclusiveMin q) (Query.InclusiveMax q) f
         (Boost_Value (Query.Boost q)) explain).
Proof.
  unfold Query.Searcher, Query.SetField. simpl. split.
  - by repeat case_bool_decide.
  - intros f Hf. by case_bool_decide.
Qed.

(** *** Update followed by Delete (lines 60-70) *)

Lemma Permutation_singleton_eq {A} (l : list A) (x : A) : l ≡ₚ [x] → l = [x].
Proof. intros Hp. by apply Permutation_singleton_r. Qed.

(** X13. On a running index whose segments have distinct IDs below the
    counter, [Update] of a document followed by [Delete] of its ID: both
    return nil; after the update the ID has exactly one live document,
    number 0 of the new segment; after the delete it has none; the live
    documents of every other ID are never touched. *)
Theorem Update_then_Delete (IndexField StoreField : Z) {TF : Type}
    (fa : Field → Z * TF) (nd : nondet TF) (sys : System)
    (h : gmap positive Document) (doc : positive) (d : Document) (D : string) :
  nondet_ok nd →
  h !! doc = Some d →
  mainLoop (scorch sys) = LoopRunning →
  NoDup (ss_id <$> is_segment (root (scorch sys))) →
  Forall (λ id, id ≤ nextSegmentID (scorch sys))
         (ss_id <$> is_segment (root (scorch sys))) →
  nextSegmentID (scorch sys) + 2 < uint64_modulus →
  ∃ sys1 h1 sys2,
    Update IndexField StoreField fa nd sys h doc = Some (None, sys1, h1) ∧
    Delete IndexField StoreField fa nd sys1 h1 (ID d) = Some (None, sys2, h1) ∧
    live (root (scorch sys1)) (ID d) = [(nextSegmentID (scorch sys) + 1, 0%nat)] ∧
    live (root (scorch sys2)) (ID d) = [] ∧
    (D ≠ ID d →
     live (root (scorch sys1)) D = live (root (scorch sys)) D ∧
     live (root (scorch sys2)) D = live (root (scorch sys)) D).
Proof.
  intros Hnd Hd Hloop Hdup Hle Hlt.
  pose proof Hnd as (Hscan & _ & _).
  (* the update *)
  set (b1 := {| index.IndexOps := <[ID d:=Some doc]> (index.IndexOps index.NewBatch);
                index.InternalOps := index.InternalOps index.NewBatch |}).
  assert (Hops1 : index.IndexOps b1 = {[ ID d := Some doc ]})
    by (subst b1; simpl; by rewrite insert_empty).
  destruct (Batch_segment_docs IndexField StoreField fa nd h b1 Hnd)
    as (docs & Hb1 & Hdocs & Hids).
  { rewrite Hops1, map_size_singleton. by vm_compute. }
  { intros docID p. rewrite Hops1. intros Hop.
    apply lookup_singleton_Some in Hop as [<- Hp]. injection Hp as <-. eauto. }
  cbv zeta in Hb1, Hdocs, Hids.
  remember (Batch_scan IndexField StoreField h
              (range_scan nd (index.IndexOps b1))) as st1 eqn:Hst1.
  rewrite Hops1, map_to_list_singleton in Hdocs, Hids.
  rewrite filter_cons, decide_True in Hdocs by (simpl; eauto).
  apply Permutation_singleton_eq in Hdocs, Hids. simpl in Hdocs, Hids.
  subst docs. rewrite Hids in Hb1.
  set (c1 := {| c_segment := {| seg_docs := [ID d] |}; c_ids := [ID d];
                c_internal := index.InternalOps b1 |}).
  assert (Hok1 : call_ok c1).
  { split; [apply NoDup_singleton|done]. }
  destruct (prepareSegment_alone sys c1 (ID d) Hloop Hdup Hle
              ltac:(unfold uint64_modulus in *; lia) Hok1)
    as (sys1 & Hp1 & Hloop1 & Hn1 & Hdup1 & Hle1 & Hlive1).
  destruct (prepareSegment_alone sys c1 D Hloop Hdup Hle
              ltac:(unfold uint64_modulus in *; lia) Hok1)
    as (sys1' & Hp1' & _ & _ & _ & _ & Hlive1D).
  rewrite Hp1 in Hp1'. injection Hp1' as <-.
  cbn [c1 c_segment c_ids c_internal] in Hp1.
  assert (HU : Update IndexField StoreField fa nd sys h doc
               = Some (None, sys1, sc_heap st1)).
  { unfold Update, index.Update. rewrite Hd. cbn [mbind option_bind].
    fold b1. unfold Batch. rewrite Hb1. cbn [mbind option_bind].
    rewrite Hp1. done. }
  (* the delete *)
  set (b2 := index.Delete index.NewBatch (ID d)).
  assert (Hops2 : index.IndexOps b2 = {[ ID d := None ]})
    by (subst b2; unfold index.Delete; simpl; by rewrite insert_empty).
  assert (Hids2 : (range_scan nd (index.IndexOps b2)).*1 = [ID d]).
  { apply Permutation_singleton_eq.
    by rewrite (Hscan _), Hops2, map_to_list_singleton. }
  set (c2 := {| c_segment := mem_New; c_ids := [ID d];
                c_internal := index.InternalOps b2 |}).
  assert (Hok2 : call_ok c2).
  { split; [apply NoDup_nil_2|apply list_subseteq_nil]. }
  destruct (prepareSegment_alone sys1 c2 (ID d) Hloop1 Hdup1 Hle1
              ltac:(rewrite Hn1; unfold uint64_modulus in *; lia) Hok2)
    as (sys2 & Hp2 & _ & _ & _ & _ & Hlive2).
  destruct (prepareSegment_alone sys1 c2 D Hloop1 Hdup1 Hle1
              ltac:(rewrite Hn1; unfold uint64_modulus in *; lia) Hok2)
    as (sys2' & Hp2' & _ & _ & _ & _ & Hlive2D).
  rewrite Hp2 in Hp2'. injection Hp2' as <-.
  cbn [c2 c_segment c_ids c_internal] in Hp2.
  assert (HD : Delete IndexField StoreField fa nd sys1 (sc_heap st1) (ID d)
               = Some (None, sys2, sc_heap st1)).
  { unfold Delete. fold b2. unfold Batch.
    rewrite (Batch_analysis_no_upserts IndexField StoreField fa nd
               (sc_heap st1) b2 Hnd).
    2:{ intros docID v. rewrite Hops2. intros Hop.
        by apply lookup_singleton_Some in Hop as [_ <-]. }
    rewrite Hids2. cbn [mbind option_bind]. rewrite Hp2. done. }
  exists sys1, (sc_heap st1), sys2. split_and!; [done|done| | |].
  - rewrite Hlive1. cbn [c1 c_ids c_segment seg_docs].
    rewrite bool_decide_eq_true_2 by (by left). simpl.
    by rewrite bool_decide_eq_true_2.
  - rewrite Hlive2. cbn [c2 c_ids c_segment seg_docs mem_New].
    by rewrite bool_decide_eq_true_2 by (by left).
  - intros HD'.
    assert (Hnot : D ∉ [ID d]).
    { apply not_elem_of_cons. split; [done|apply not_elem_of_nil]. }
    rewrite Hlive2D, Hlive1D. cbn [c1 c2 c_ids].
    by rewrite !bool_decide_eq_false_2.
Qed.

(** *** The further properties at concrete inputs *)

(** A document with an indexed and a non-indexed field and one composite
    field. *)
Lemma Analyze_result_witness :
  Analyzed (Analyze Fixture.IndexField Fixture.fa 1
              {| ID := "a";
                 Fields := [NewTextFieldCustom "t" [] [Byte.x61] 1 None;
                            NewTextFieldCustom "u" [] [Byte.x62] 2 None];
                 CompositeFields := ["_all"%string] |}) !! 0%nat
  = Some (Some tt).
Proof.
  apply (proj1 (proj2 (proj2 (proj2 (Analyze_result Fixture.IndexField Fixture.fa 1
           {| ID := "a";
              Fields := [NewTextFieldCustom "t" [] [Byte.x61] 1 None;
                         NewTextFieldCustom "u" [] [Byte.x62] 2 None];
              CompositeFields := ["_all"%string] |}))))
         0%nat (NewTextFieldCustom "t" [] [Byte.x61] 1 None)).
  reflexivity.
Defined.

(** Document 1, upserted under "a". *)
Lemma identity_fields_counted_witness :
  sc_heap (Batch_scan Fixture.IndexField Fixture.StoreField Fixture.h
             (range_scan Fixture.nd (index.IndexOps (single_upsert "a" 1))))
    !! 1%positive
  = with_ids Fixture.IndexField Fixture.StoreField
      (length (filter (λ e : string * option positive, e.2 = Some 1%positive)
                      (map_to_list (index.IndexOps (single_upsert "a" 1)))))
      <$> Fixture.h !! 1%positive.
Proof.
  apply (identity_fields_counted Fixture.IndexField Fixture.StoreField
           Fixture.nd Fixture.h (single_upsert "a" 1) 1).
  split_and!; intros; reflexivity.
Defined.

Lemma scan_order_irrelevant_witness :
  NoDup (ids (Batch_scan Fixture.IndexField Fixture.StoreField Fixture.h
                (range_scan Fixture.nd (index.IndexOps (single_upsert "a" 1))))).
Proof.
  apply (scan_order_irrelevant Fixture.IndexField Fixture.StoreField
           Fixture.nd Fixture.nd Fixture.h (single_upsert "a" 1)).
  - split_and!; intros; reflexivity.
  - split_and!; intros; reflexivity.
Defined.

(** The root with one segment. *)
Lemma obsoletes_last_entry_wins_witness :
  si_obsoletes Fixture.obsoletes_a.1 !! 1
  = Some (DocNumbers Fixture.segment_a ["a"%string]).
Proof.
  apply (proj1 (proj2 (proj2 (obsoletes_last_entry_wins (Open NewScorch)
           Fixture.root_a Fixture.segment_a ["a"%string] ∅)))
         [] {| ss_id := 1; ss_segment := Fixture.segment_a; ss_deleted := ∅ |} []).
  - reflexivity.
  - simpl. apply not_elem_of_nil.
Defined.

(** An index that was never opened. *)
Lemma prepareSegment_needs_running_loop_witness :
  prepareSegment {| scorch := NewScorch; threads := [] |}
    Fixture.segment_a ["a"%string] ∅ = None.
Proof.
  apply (prepareSegment_needs_running_loop {| scorch := NewScorch; threads := [] |}).
  simpl. discriminate.
Defined.

Lemma segment_ids_in_use_distinct_witness :
  ∃ sys', run Fixture.interleaved initial = Some sys' ∧
          NoDup (ids_in_use sys').
Proof.
  destruct (run Fixture.interleaved initial) as [sys'|] eqn:Hrun;
    [|by vm_compute in Hrun].
  exists sys'. split; [reflexivity|].
  apply (segment_ids_in_use_distinct _ _ Hrun). reflexivity.
Defined.

(** A reader made after the first goroutine of the interleaved run has
    returned and the second introduction has been applied. *)
Lemma Reader_sees_returned_batches_witness :
  ∃ sys sys' i,
    run (take 8 Fixture.interleaved) initial = Some sys ∧
    run (drop 8 Fixture.interleaved) sys = Some sys' ∧
    applied_in (reader_root (Reader (scorch sys')).1) i.
Proof.
  destruct (run (take 8 Fixture.interleaved) initial) as [sys|] eqn:Hrun;
    [|by vm_compute in Hrun].
  destruct (run (drop 8 Fixture.interleaved) sys) as [sys'|] eqn:Hrun';
    [|vm_compute in Hrun; injection Hrun as <-; by vm_compute in Hrun'].
  destruct (threads sys !! 0%nat) as [[| | | |i err]|] eqn:Ht;
    try (vm_compute in Hrun; injection Hrun as <-; by vm_compute in Ht).
  exists sys, sys', i. split; [reflexivity|]. split; [exact Hrun'|].
  apply (Reader_sees_returned_batches _ _ _ _ _ _ _ Hrun Ht Hrun').
Defined.

(** The batch that upserts document 1 under "a", on the empty index. *)
Lemma Batch_effect_on_live_witness :
  ∃ sys' h',
    Batch Fixture.IndexField Fixture.StoreField Fixture.fa Fixture.nd
          initial Fixture.h (single_upsert "a" 1) = Some (None, sys', h') ∧
    ∃ n, live (root (scorch sys')) "a" = [(1, n)].
Proof.
  destruct (Batch_effect_on_live Fixture.IndexField Fixture.StoreField
              Fixture.fa Fixture.nd initial Fixture.h (single_upsert "a" 1) "a")
    as (sys' & h' & Hb & Hlive).
  - split_and!; intros; reflexivity.
  - reflexivity.
  - intros docID doc Hop. simpl in Hop.
    apply lookup_singleton_Some in Hop as [<- Hdoc]. injection Hdoc as <-.
    eexists. split; reflexivity.
  - reflexivity.
  - simpl. apply NoDup_nil_2.
  - exists sys', h'. split; [exact Hb|]. exact Hlive.
Defined.

(** Document 1 written to the empty index, then deleted. *)
Lemma Update_then_Delete_witness :
  ∃ sys1 h1 sys2,
    Update Fixture.IndexField Fixture.StoreField Fixture.fa Fixture.nd
           initial Fixture.h 1 = Some (None, sys1, h1) ∧
    Delete Fixture.IndexField Fixture.StoreField Fixture.fa Fixture.nd
           sys1 h1 "a" = Some (None, sys2, h1) ∧
    live (root (scorch sys1)) "a" = [(1, 0%nat)] ∧
    live (root (scorch sys2)) "a" = [].
Proof.
  destruct (Update_then_Delete Fixture.IndexField Fixture.StoreField
              Fixture.fa Fixture.nd initial Fixture.h 1 (Fixture.doc "a") "b")
    as (sys1 & h1 & sys2 & Hu & Hdel & Hl1 & Hl2 & _).
  - split_and!; intros; reflexivity.
  - reflexivity.
  - reflexivity.
  - simpl. apply NoDup_nil_2.
  - simpl. apply Forall_nil_2.
  - reflexivity.
  - exists sys1, h1, sys2. split_and!; [exact Hu|exact Hdel|exact Hl1|exact Hl2].
Defined.
